(** * keepsake: the Google Cloud Storage gateway ([cli/pkg/storage/gcs.go])

    A shallow embedding of [GCSStorage] and of the library calls it makes,
    followed by the properties of the storage specification that were
    checked against it.

    Layout:
    - [Strings]   : the functions of Go's [strings] package used by the code;
    - [Filepath]  : the functions of Go's [path/filepath] used by the code
                    (Unix, separator [/]);
    - [Backend]   : the Backend Adapter, i.e. what the code observes of
                    [cloud.google.com/go/storage];
    - [Storage]   : [gcs.go] itself;
    - the theorems. *)

From Stdlib Require Import String Ascii List ZArith Lia Bool Arith.
Import ListNotations.
Local Open Scope string_scope.

(* ===================================================================== *)
(** ** Go's [strings] package *)
(* ===================================================================== *)

Module Strings.

(** [strings.HasPrefix(s, prefix)]. *)
Definition HasPrefix (s prefix : string) : bool := String.prefix prefix s.

(** [strings.HasSuffix(s, suffix)]:
    [len(s) >= len(suffix) && s[len(s)-len(suffix):] == suffix]. *)
Definition HasSuffix (s suffix : string) : bool :=
  (String.length suffix <=? String.length s)%nat
  && String.eqb
       (substring (String.length s - String.length suffix)
                  (String.length suffix) s)
       suffix.

(** [strings.TrimPrefix(s, prefix)]: [s] without the leading [prefix],
    removed once; [s] itself when it does not start with [prefix]. *)
Definition TrimPrefix (s prefix : string) : string :=
  if HasPrefix s prefix
  then substring (String.length prefix)
                 (String.length s - String.length prefix) s
  else s.

(** [strings.Join(elems, sep)]. *)
Fixpoint Join (elems : list string) (sep : string) : string :=
  match elems with
  | [] => ""
  | [e] => e
  | e :: rest => e ++ sep ++ Join rest sep
  end.

(** [strings.Split(s, "/")]: the pieces of [s] between slashes; always at
    least one piece. *)
Fixpoint SplitSlash (s : string) : list string :=
  match s with
  | EmptyString => [""]
  | String c r =>
      if Ascii.eqb c "/"
      then "" :: SplitSlash r
      else match SplitSlash r with
           | [] => [String c ""]
           | p :: ps => String c p :: ps
           end
  end.

(** [s] occurs inside [t]. *)
Definition Contains (t s : string) : Prop :=
  exists pre post, t = pre ++ s ++ post.

End Strings.

(* ===================================================================== *)
(** ** Go's [path/filepath] package (Unix: separator [/], no volume names)

    The functions are modelled element-wise: a path is split at its
    separators, the list of elements is transformed by the rules that the
    package documents, and the result is joined again. *)
(* ===================================================================== *)

Module Filepath.

Definition isEmpty (s : string) : bool := String.eqb s "".

(** One element of [Clean]'s scan; [stack] holds the elements written so
    far, the last one first.  Empty and [.] elements are dropped; [..]
    removes the element before it when there is one to remove, is dropped
    at the root of a rooted path, and is kept otherwise. *)
Definition cleanStep (rooted : bool) (stack : list string) (e : string)
  : list string :=
  if isEmpty e || String.eqb e "." then stack
  else if String.eqb e ".." then
    match stack with
    | top :: below => if String.eqb top ".." then e :: stack else below
    | [] => if rooted then [] else [e]
    end
  else e :: stack.

(** [filepath.Clean(path)]. *)
Definition Clean (path : string) : string :=
  if isEmpty path then "."
  else
    let rooted := Strings.HasPrefix path "/" in
    let stack := fold_left (cleanStep rooted) (Strings.SplitSlash path) [] in
    let body := Strings.Join (rev stack) "/" in
    if rooted then "/" ++ body
    else if isEmpty body then "." else body.

Fixpoint dropEmpty (elem : list string) : list string :=
  match elem with
  | [] => []
  | e :: rest => if isEmpty e then dropEmpty rest else elem
  end.

(** [filepath.Join(elem...)]: the elements from the first non-empty one on,
    joined by [/] and cleaned; the empty string when all are empty. *)
Definition Join (elem : list string) : string :=
  match dropEmpty elem with
  | [] => ""
  | es => Clean (Strings.Join es "/")
  end.

(** [filepath.Dir(path)]: all but the last element of [path], cleaned. *)
Definition Dir (path : string) : string :=
  match removelast (Strings.SplitSlash path) with
  | [] => Clean ""
  | es => Clean (Strings.Join es "/" ++ "/")
  end.

(** [filepath.Base(path)]: the last element of [path], trailing separators
    removed first; [.] for the empty path and [/] for a path of separators
    only. *)
Definition Base (path : string) : string :=
  if isEmpty path then "."
  else match dropEmpty (rev (Strings.SplitSlash path)) with
       | [] => "/"
       | e :: _ => e
       end.

(** The elements of a cleaned path as [Rel] walks them: none for the empty
    base, the single empty element before the separator for the root. *)
Definition elements (cleaned : string) : list string :=
  if isEmpty cleaned then []
  else if String.eqb cleaned "/" then [""]
  else Strings.SplitSlash cleaned.

(** [Rel] positions both paths at their first differing elements. *)
Fixpoint dropCommon (base targ : list string) : list string * list string :=
  match base, targ with
  | b :: base', t :: targ' =>
      if String.eqb b t then dropCommon base' targ' else (base, targ)
  | _, _ => (base, targ)
  end.

(** [filepath.Rel(basepath, targpath)]; [None] stands for the error
    [Rel: can't make targpath relative to basepath]. *)
Definition Rel (basepath targpath : string) : option string :=
  let base := Clean basepath in
  let targ := Clean targpath in
  if String.eqb targ base then Some "."
  else
    let base := if String.eqb base "." then "" else base in
    if negb (Bool.eqb (Strings.HasPrefix base "/") (Strings.HasPrefix targ "/"))
    then None
    else
      let (b, t) := dropCommon (elements base) (elements targ) in
      match b with
      | [] => Some (Strings.Join t "/")
      | b0 :: _ =>
          if String.eqb b0 ".." then None
          else Some (Strings.Join (map (fun _ => "..") b ++ t)%list "/")
      end.

End Filepath.

(* ===================================================================== *)
(** ** The Backend Adapter

    What [gcs.go] observes of [cloud.google.com/go/storage], of
    [google.golang.org/api/iterator] and of [context]: error values, the
    records an object iterator yields, and the answers of a bucket. *)
(* ===================================================================== *)

Module Backend.

(** Go [error] values that reach the code. *)
Inductive error : Type :=
| ErrObjectNotExist              (* the sentinel [storage.ErrObjectNotExist] *)
| Canceled                       (* [context.Canceled], [Err()] of a cancelled context *)
| Fault (msg : string)           (* any other failure of the backend *)
| NotExistError (msg : string)   (* [&NotExistError{msg: msg}] *)
| Errorf (msg : string).         (* an error built by [fmt.Errorf] *)

(** [err.Error()], as [%s] and [%w] print it. *)
Definition message (e : error) : string :=
  match e with
  | ErrObjectNotExist => "storage: object doesn't exist"
  | Canceled => "context canceled"
  | Fault msg | NotExistError msg | Errorf msg => msg
  end.

(** [storage.ObjectAttrs], the two fields that tell entries apart: [Name]
    and [Prefix], the latter called [DirPrefix] here.  When a listing has
    a delimiter, the iterator yields one record per synthetic directory in
    which only [Prefix] is set and every other field, [Name] included, is
    left at its zero value; a record of a real object has its key in
    [Name] and an empty [Prefix]. *)
Record ObjectAttrs : Type := mkAttrs { Name : string; DirPrefix : string }.

(** [storage.Query]. *)
Record Query : Type := mkQuery { Prefix : string; Delimiter : string }.

(** One answer of [it.Next()] other than [iterator.Done]: a record, or a
    nil record together with an error. *)
Inductive next : Type :=
| Item (attrs : ObjectAttrs)
| Failed (err : error).

(** An object iterator is the sequence of answers [it.Next()] has yet to
    give; after the last one it answers [iterator.Done]. *)
Definition ObjectIterator : Type := list next.

(** A [storage.Reader]: the bytes it delivers and the error, if any, that
    ends the stream. *)
Record Reader : Type := mkReader { content : list Byte.byte; readErr : option error }.

(** A bucket handle: what [Objects(ctx, query)] iterates and what
    [Object(name).NewReader(ctx)] answers. *)
Record BucketHandle : Type := mkBucket {
  Objects : Query -> ObjectIterator;
  NewReader : string -> Reader + error
}.

(** *** A bucket without faults over a flat namespace *)

(** The object namespace: keys with their bytes, in the order the backend
    lists them. *)
Definition Namespace : Type := list (string * list Byte.byte).

Definition keys (ns : Namespace) : list string := map fst ns.

Fixpoint lookup (ns : Namespace) (key : string) : option (list Byte.byte) :=
  match ns with
  | [] => None
  | (k, v) :: rest => if String.eqb k key then Some v else lookup rest key
  end.

Definition remove (ns : Namespace) (key : string) : Namespace :=
  filter (fun kv => negb (String.eqb (fst kv) key)) ns.

(** The part of [key] that follows a prefix of it. *)
Definition after (prefix key : string) : string :=
  substring (String.length prefix) (String.length key - String.length prefix) key.

(** The synthetic directory that stands for [key] in a listing with a
    delimiter: the key up to and including the first delimiter after the
    query's prefix. *)
Definition directoryOf (q : Query) (key : string) : option string :=
  if String.eqb (Delimiter q) "" then None
  else
    match index 0 (Delimiter q) (after (Prefix q) key) with
    | Some i =>
        Some (Prefix q ++
              substring 0 (i + String.length (Delimiter q)) (after (Prefix q) key))
    | None => None
    end.

(** The records of one listing: the objects whose key starts with the
    prefix and has no delimiter after it, then one record per synthetic
    directory. *)
Definition listObjects (ks : list string) (q : Query) : list ObjectAttrs :=
  let matching := filter (fun k => Strings.HasPrefix k (Prefix q)) ks in
  let objects :=
    filter (fun k => match directoryOf q k with None => true | Some _ => false end)
           matching in
  let directories :=
    nodup string_dec
      (flat_map (fun k => match directoryOf q k with
                          | Some d => [d]
                          | None => []
                          end) matching) in
  (map (fun k => mkAttrs k "") objects
   ++ map (fun d => mkAttrs "" d) directories)%list.

Definition bucketOf (ns : Namespace) : BucketHandle :=
  mkBucket
    (fun q => map Item (listObjects (keys ns) q))
    (fun name => match lookup ns name with
                 | Some bytes => inl (mkReader bytes None)
                 | None => inr ErrObjectNotExist
                 end).

(** *** The local file system, without faults *)

Record LocalFS : Type := mkFS {
  dirs : list string;
  files : list (string * list Byte.byte)
}.

(** [os.MkdirAll(dir, 0755)]. *)
Definition MkdirAll (fs : LocalFS) (dir : string) : LocalFS :=
  mkFS (dir :: dirs fs) (files fs).

(** [os.Create(path)] followed by [io.Copy] of [bytes] into the file: the
    file at [path] is created, or truncated, and holds [bytes]. *)
Definition CreateWith (fs : LocalFS) (path : string) (bytes : list Byte.byte)
  : LocalFS :=
  mkFS (dirs fs)
       ((path, bytes)
        :: filter (fun pb => negb (String.eqb (fst pb) path)) (files fs)).

End Backend.

(* ===================================================================== *)
(** ** [gcs.go] *)
(* ===================================================================== *)

Module Storage.
Import Backend.

(** [type GCSStorage struct { bucketName string; client *storage.Client }];
    the client is represented by the handle of the one bucket it opens. *)
Record GCSStorage : Type := mkGCS { bucketName : string; client : BucketHandle }.

(** Modelled from the spec: the declaration of [ListResult] is in another
    file of the package; a Match Result is either [{path}] or [{error}],
    built in [gcs.go] as [ListResult{Path: ...}] and
    [ListResult{Error: ...}]. *)
Record ListResult : Type := mkResult { Path : string; Error : option error }.

Definition RootURL (s : GCSStorage) : string := "gs://" ++ bucketName s.

(** *** Single objects *)

Definition Get (s : GCSStorage) (path : string) : list Byte.byte + error :=
  let pathString := "gs://" ++ bucketName s ++ "/" ++ path in
  match NewReader (client s) path with
  | inr err =>
      match err with
      | ErrObjectNotExist =>
          inr (NotExistError ("Get: path does not exist: " ++ path))
      | _ =>
          inr (Errorf ("Failed to open " ++ pathString ++ ", got error: "
                       ++ message err))
      end
  | inl reader =>
      match readErr reader with
      | Some err =>
          inr (Errorf ("Failed to read " ++ pathString ++ ", got error: "
                       ++ message err))
      | None => inl (content reader)
      end
  end.

(** [Put] and [PutDirectory]: the bodies are [// TODO] and [return nil];
    the namespace, threaded through, comes back as it went in. *)
Definition Put (ns : Namespace) (path : string) (data : list Byte.byte)
  : Namespace * option error :=
  (ns, None).

Definition PutDirectory (ns : Namespace) (localPath storagePath : string)
  : Namespace * option error :=
  (ns, None).

(** *** Prefix normalization

    The statements at the entry of [List] and of [listRecursive], the same
    in both:
    [if !strings.HasSuffix(dir, "/") { dir += "/" }; dir = strings.TrimPrefix(dir, "/")]. *)
Definition Normalize (dir : string) : string :=
  let dir := if negb (Strings.HasSuffix dir "/") then dir ++ "/" else dir in
  Strings.TrimPrefix dir "/".

(** *** [List] *)

Fixpoint ListLoop (s : GCSStorage) (dir : string) (it : ObjectIterator)
  (results : list string) : list string + error :=
  match it with
  | [] => inl results
  | Failed _ :: _ =>
      inr (Errorf ("Failed to list gs://" ++ bucketName s ++ "/" ++ dir))
  | Item attrs :: rest => ListLoop s dir rest (results ++ [Name attrs])%list
  end.

Definition List (s : GCSStorage) (dir : string) : list string + error :=
  let dir := Normalize dir in
  ListLoop s dir (Objects (client s) (mkQuery dir "/")) [].

(** *** [listRecursive] and [MatchFilenamesRecursive]

    The producer's side of the [results] channel: what it sends, in order,
    and how it ends.  A consumer that keeps receiving is assumed. *)
Inductive ending : Type :=
| Closed       (* [close(results)] after [iterator.Done] *)
| Panicked.    (* nil-pointer dereference in the producer *)

(** The loop of [listRecursive].  On an error [attrs] is nil: the error
    result is sent and the evaluation of [attrs.Name] that follows, with no
    [continue] or [break] in between, panics. *)
Fixpoint listRecursiveLoop (s : GCSStorage) (folder : string)
  (filter : string -> bool) (it : ObjectIterator) : list ListResult * ending :=
  match it with
  | [] => ([], Closed)
  | Failed _ :: _ =>
      ([mkResult "" (Some (Errorf ("Failed to list gs://" ++ bucketName s
                                   ++ "/" ++ folder)))],
       Panicked)
  | Item attrs :: rest =>
      let (sent, e) := listRecursiveLoop s folder filter rest in
      if filter (Name attrs)
      then (mkResult (Name attrs) None :: sent, e)
      else (sent, e)
  end.

Definition listRecursive (s : GCSStorage) (folder : string)
  (filter : string -> bool) : list ListResult * ending :=
  let folder := Normalize folder in
  listRecursiveLoop s folder filter (Objects (client s) (mkQuery folder "")).

Definition MatchFilenamesRecursive (s : GCSStorage) (folder filename : string)
  : list ListResult * ending :=
  listRecursive s folder (fun key => String.eqb (Filepath.Base key) filename).

(** *** [applyRecursive]: the Bounded Concurrent Applier

    The call is a transition system.  Its state holds the iterator, the
    weighted semaphore [sem] (its capacity is [concurrency], its counter
    [cur]), the [errgroup] (the goroutines it has not seen finish, its
    [err] slot and whether its context is cancelled), the place the calling
    goroutine has reached, and the world the operation acts on.  Two
    counters record what the call has done so far: the [it.Next()] calls
    and the objects handed to [group.Go]. *)

(** A goroutine started by [group.Go] goes through three moments:
    [fn(obj)] is running; [fn] has returned [r] and the deferred
    [sem.Release(1)] is about to run; the token is back and the group is
    about to record [r] ([errOnce], [cancel]) and count the goroutine as
    done ([wg.Done]). *)
Inductive phase : Type :=
| Running
| Finished (r : option error)
| Released (r : option error).

Record worker : Type := mkWorker { object : string; at_ : phase }.

(** Where the calling goroutine is. *)
Inductive pc : Type :=
| Listing                      (* about to call [it.Next()] *)
| Acquiring (name : string)    (* in [sem.Acquire(ctx, 1)] for [attrs.Name] *)
| Waiting                      (* in [group.Wait()] *)
| Returned (r : option error). (* [applyRecursive] has returned [r] *)

Record state (W : Type) : Type := mkState {
  it : ObjectIterator;
  cur : Z;
  workers : list worker;
  groupErr : option error;
  cancelled : bool;
  main : pc;
  world : W;
  nextCalls : nat;
  submitted : list string
}.

Arguments mkState {W}.
Arguments it {W}.
Arguments cur {W}.
Arguments workers {W}.
Arguments groupErr {W}.
Arguments cancelled {W}.
Arguments main {W}.
Arguments world {W}.
Arguments nextCalls {W}.
Arguments submitted {W}.

(** Who moves: the calling goroutine; the calling goroutine, by
    [sem.Acquire] giving up because the context is done; or the goroutine
    at position [i] of the group. *)
Inductive label : Type :=
| Main
| AcquireCanceled
| Work (i : nat).

Definition replaceAt {A : Type} (i : nat) (x : A) (l : list A) : list A :=
  (firstn i l ++ x :: skipn (S i) l)%list.

Definition removeAt {A : Type} (i : nat) (l : list A) : list A :=
  (firstn i l ++ skipn (S i) l)%list.

Section Applier.

Variable W : Type.
Variable concurrency : Z.
Variable fn : W -> string -> W * option error.

(** A step of the calling goroutine (lines 191-212).  [sem.Acquire] takes
    a token when [size - cur >= 1] and otherwise has no step here: it
    blocks. *)
Definition stepMain (s : state W) : option (state W) :=
  match main s with
  | Listing =>
      match it s with
      | [] =>
          Some (mkState [] (cur s) (workers s) (groupErr s) (cancelled s)
                  Waiting (world s) (S (nextCalls s)) (submitted s))
      | Failed err :: rest =>
          Some (mkState rest (cur s) (workers s) (groupErr s) (cancelled s)
                  (Returned (Some err)) (world s) (S (nextCalls s))
                  (submitted s))
      | Item attrs :: rest =>
          Some (mkState rest (cur s) (workers s) (groupErr s) (cancelled s)
                  (Acquiring (Name attrs)) (world s) (S (nextCalls s))
                  (submitted s))
      end
  | Acquiring name =>
      if (1 <=? concurrency - cur s)%Z
      then Some (mkState (it s) (cur s + 1)
                   (workers s ++ [mkWorker name Running])
                   (groupErr s) (cancelled s) Listing (world s)
                   (nextCalls s) (submitted s ++ [name]))
      else None
  | Waiting =>
      match workers s with
      | [] =>
          Some (mkState (it s) (cur s) [] (groupErr s) (cancelled s)
                  (Returned (groupErr s)) (world s) (nextCalls s)
                  (submitted s))
      | _ :: _ => None
      end
  | Returned _ => None
  end.

(** [sem.Acquire(ctx, 1)] returns [ctx.Err()], and [applyRecursive]
    returns it (lines 200-202).  This needs the context to be done.  When
    the context is done and a token is free as well, the semaphore's
    contract allows either answer, and both are steps. *)
Definition stepAcquireCanceled (s : state W) : option (state W) :=
  match main s with
  | Acquiring _ =>
      if cancelled s
      then Some (mkState (it s) (cur s) (workers s) (groupErr s) (cancelled s)
                   (Returned (Some Canceled)) (world s) (nextCalls s)
                   (submitted s))
      else None
  | _ => None
  end.

(** A step of the goroutine at position [i] (lines 203-207 and the body of
    [errgroup.Group.Go]).  The effect of [fn] on the world takes place at
    the moment [fn] returns. *)
Definition stepWork (i : nat) (s : state W) : option (state W) :=
  match nth_error (workers s) i with
  | None => None
  | Some w =>
      match at_ w with
      | Running =>
          let (world', r) := fn (world s) (object w) in
          Some (mkState (it s) (cur s)
                  (replaceAt i (mkWorker (object w) (Finished r)) (workers s))
                  (groupErr s) (cancelled s) (main s) world'
                  (nextCalls s) (submitted s))
      | Finished r =>
          Some (mkState (it s) (cur s - 1)
                  (replaceAt i (mkWorker (object w) (Released r)) (workers s))
                  (groupErr s) (cancelled s) (main s) (world s)
                  (nextCalls s) (submitted s))
      | Released r =>
          match r, groupErr s with
          | Some err, None =>
              Some (mkState (it s) (cur s) (removeAt i (workers s))
                      (Some err) true (main s) (world s)
                      (nextCalls s) (submitted s))
          | _, _ =>
              Some (mkState (it s) (cur s) (removeAt i (workers s))
                      (groupErr s) (cancelled s) (main s) (world s)
                      (nextCalls s) (submitted s))
          end
      end
  end.

Definition step (l : label) (s : state W) : option (state W) :=
  match l with
  | Main => stepMain s
  | AcquireCanceled => stepAcquireCanceled s
  | Work i => stepWork i s
  end.

(** A schedule is run from left to right; [None] when one of its steps is
    not enabled. *)
Fixpoint run (schedule : list label) (s : state W) : option (state W) :=
  match schedule with
  | [] => Some s
  | l :: rest =>
      match step l s with
      | Some s' => run rest s'
      | None => None
      end
  end.

(** The state in which the loop is entered (lines 185-190): a fresh
    semaphore and group, and the iterator of the query [{Prefix: dir}]. *)
Definition applyRecursive (s : GCSStorage) (dir : string) (w : W) : state W :=
  mkState (Objects (client s) (mkQuery dir "")) 0 [] None false
          Listing w 0 [].

(** The tokens that are out: one per goroutine that has not yet run its
    [sem.Release(1)]. *)
Definition holdsToken (w : worker) : bool :=
  match at_ w with
  | Running | Finished _ => true
  | Released _ => false
  end.


End Applier.

Arguments stepMain {W}.
Arguments stepAcquireCanceled {W}.
Arguments stepWork {W}.
Arguments step {W}.
Arguments run {W}.
Arguments applyRecursive {W}.

(** *** [Delete] *)

(** [obj.Delete(ctx)] on a bucket without faults. *)
Definition deleteObject (ns : Namespace) (name : string)
  : Namespace * option error :=
  match lookup ns name with
  | Some _ => (remove ns name, None)
  | None => (ns, Some ErrObjectNotExist)
  end.

(** The call [s.applyRecursive(path, 128, ...)] that [Delete] makes, on
    the namespace [ns] behind the bucket, under a schedule. *)
Definition Delete (name : string) (ns : Namespace) (path : string)
  (schedule : list label) : option (state Namespace) :=
  run 128 deleteObject schedule
      (applyRecursive (mkGCS name (bucketOf ns)) path ns).

(** What [Delete] makes of the result of [applyRecursive]. *)
Definition DeleteResult (name path : string) (r : option error) : option error :=
  match r with
  | Some err =>
      Some (Errorf ("Failed to delete gs://" ++ name ++ "/" ++ path ++ ": "
                    ++ message err))
  | None => None
  end.

(** *** [GetDirectory] *)

(** The operation [GetDirectory] hands to [applyRecursive], on a local file
    system without faults. *)
Definition getObject (s : GCSStorage) (storageDir localDir : string)
  (fs : LocalFS) (name : string) : LocalFS * option error :=
  let gcsPathString := "gs://" ++ bucketName s ++ "/" ++ name in
  match NewReader (client s) name with
  | inr err =>
      (fs, Some (Errorf ("Failed to open " ++ gcsPathString ++ ", got error: "
                         ++ message err)))
  | inl reader =>
      match Filepath.Rel storageDir name with
      | None =>
          (fs, Some (Errorf ("Failed to determine directory of " ++ name
                             ++ " relative to " ++ storageDir
                             ++ ", got error: Rel: can't make " ++ name
                             ++ " relative to " ++ storageDir)))
      | Some relPath =>
          let localPath := Filepath.Join [localDir; relPath] in
          let localDir := Filepath.Dir localPath in
          let fs := MkdirAll fs localDir in
          let fs := CreateWith fs localPath (content reader) in
          match readErr reader with
          | Some err =>
              (fs, Some (Errorf ("Failed to copy " ++ gcsPathString ++ " to "
                                 ++ localPath ++ ", got error: "
                                 ++ message err)))
          | None => (fs, None)
          end
      end
  end.

(** The call [s.applyRecursive(storageDir, int64(128), ...)] that
    [GetDirectory] makes, under a schedule. *)
Definition GetDirectory (s : GCSStorage) (storageDir localDir : string)
  (fs : LocalFS) (schedule : list label) : option (state LocalFS) :=
  run 128 (getObject s storageDir localDir) schedule
      (applyRecursive s storageDir fs).

Definition GetDirectoryResult (s : GCSStorage) (storageDir localDir : string)
  (r : option error) : option error :=
  match r with
  | Some err =>
      Some (Errorf ("Failed to copy gs://" ++ bucketName s ++ "/" ++ storageDir
                    ++ " to " ++ localDir ++ ", got error: " ++ message err))
  | None => None
  end.

(** A local path lies inside the directory [dir]: it continues the cleaned
    [dir] after a separator. *)
Definition insideDir (dir path : string) : bool :=
  let dir := Filepath.Clean dir in
  Strings.HasPrefix path (if String.eqb dir "/" then dir else dir ++ "/").

End Storage.

(* ===================================================================== *)
(** ** Notions used in the statements *)
(* ===================================================================== *)

Import Backend Storage.

(** [s] ends with a slash, by recursion on [s]. *)
Fixpoint endsWithSlash (s : string) : bool :=
  match s with
  | EmptyString => false
  | String c EmptyString => Ascii.eqb c "/"
  | String _ r => endsWithSlash r
  end.

(** What [Normalize] works on after its first statement: [dir] with a
    slash at the end. *)
Definition withSlash (dir : string) : string :=
  if negb (Strings.HasSuffix dir "/") then dir ++ "/" else dir.

(** The elements of [l] that satisfy [f], counted. *)
Definition count {A : Type} (f : A -> bool) (l : list A) : nat :=
  List.length (filter f l).

(** The iterator has no fault to report. *)
Definition faultless (it : ObjectIterator) : Prop :=
  forall err, ~ In (Failed err) it.

(** A result on the channel is a success [{path}] result. *)
Definition isPath (r : ListResult) : Prop := Error r = None.

(** A bucket whose listing yields one object and then fails. *)
Definition failingBucket : GCSStorage :=
  mkGCS "bucket"
    (mkBucket (fun _ => [Item (mkAttrs "a/b.txt" ""); Failed (Fault "backend unavailable")])
              (fun _ => inr ErrObjectNotExist)).

(** The object names an iterator has yet to yield. *)
Definition names (it : ObjectIterator) : list string :=
  flat_map (fun n => match n with Item attrs => [Name attrs] | Failed _ => [] end) it.


(** The objects handed to [group.Go] so far, followed by the one a token
    is being acquired for and by those still to be listed, are the names
    of the listing; a call that has returned an error may have dropped the
    rest. *)
Definition visiting {W : Type} (all : list string) (st : state W) : Prop :=
  match main st with
  | Listing => (submitted st ++ names (it st))%list = all
  | Acquiring name => (submitted st ++ name :: names (it st))%list = all
  | Waiting | Returned None => submitted st = all
  | Returned (Some _) => exists rest, (submitted st ++ rest)%list = all
  end.

(** The semaphore's counter is the number of goroutines that have not yet
    released their token, and it stays within the capacity. *)
Definition tokensInv {W : Type} (concurrency : Z) (st : state W) : Prop :=
  cur st = Z.of_nat (count holdsToken (workers st))
  /\ (cur st <= Z.max 0 concurrency)%Z.

(** What the call can reach when no token can ever be taken. *)
Definition stalled {W : Type} (it0 : ObjectIterator) (st : state W)
  : Prop :=
  workers st = [] /\ submitted st = [] /\ cur st = 0%Z
  /\ groupErr st = None /\ cancelled st = false
  /\ match main st with
     | Listing => it st = it0 /\ nextCalls st = 0
     | Acquiring _ => nextCalls st = 1 /\ exists attrs rest, it0 = Item attrs :: rest
     | Waiting => nextCalls st = 1 /\ it0 = []
     | Returned r =>
         nextCalls st = 1
         /\ match it0 with
            | [] => r = None
            | Failed err :: _ => r = Some err
            | Item _ :: _ => False
            end
     end.


(* ===================================================================== *)
(** ** Further notions for the Bounded Concurrent Applier *)
(* ===================================================================== *)




(** What running the operation on the listed objects one after the other
    gives: the world at the end and the first error, if any. *)
Fixpoint sequentially {W : Type} (fn : W -> string -> W * option error)
  (objects : list string) (w : W) (first : option error)
  : W * option error :=
  match objects with
  | [] => (w, first)
  | name :: rest =>
      let (w', r) := fn w name in
      sequentially fn rest w'
        (match r, first with
         | Some err, None => Some err
         | _, _ => first
         end)
  end.


(** [err] is an error the operation returns for [name] in some world. *)
Definition returnedBy {W : Type} (fn : W -> string -> W * option error)
  (name : string) (err : error) : Prop :=
  exists w w', fn w name = (w', Some err).

(** A call on a listing without entries: what it can reach. *)
Definition idle {W : Type} (w : W) (st : state W) : Prop :=
  it st = [] /\ workers st = [] /\ submitted st = [] /\ world st = w
  /\ groupErr st = None
  /\ (main st = Listing \/ main st = Waiting \/ main st = Returned None).

(** A call on a listing whose first answer is the error [err]: what it can
    reach. *)
Definition failedAtOnce {W : Type} (w : W) (err : error) (rest : ObjectIterator)
  (st : state W) : Prop :=
  workers st = [] /\ submitted st = [] /\ world st = w
  /\ ((main st = Listing /\ it st = Failed err :: rest)
      \/ main st = Returned (Some err)).

(** A call that has left the loop at [iterator.Done] has nothing more to
    list, and one that has then returned nil has no goroutine left and no
    error recorded. *)
Definition doneWhenNil {W : Type} (st : state W) : Prop :=
  (main st = Waiting -> it st = [])
  /\ (main st = Returned None ->
      it st = [] /\ workers st = [] /\ groupErr st = None).

(** A goroutine of the group works on an object that was handed to
    [group.Go], and an error it carries is one the operation returned for
    that object. *)
Definition accounted {W : Type} (fn : W -> string -> W * option error)
  (handed : list string) (w : worker) : Prop :=
  In (object w) handed
  /\ match at_ w with
     | Finished (Some err) | Released (Some err) => returnedBy fn (object w) err
     | _ => True
     end.

(** Where the errors of a call come from. *)
Definition provenance {W : Type} (fn : W -> string -> W * option error)
  (it0 : ObjectIterator) (st : state W) : Prop :=
  Forall (accounted fn (submitted st)) (workers st)
  /\ (forall err, groupErr st = Some err ->
        exists name, In name (submitted st) /\ returnedBy fn name err)
  /\ (cancelled st = true <-> groupErr st <> None)
  /\ (exists before, it0 = (before ++ it st)%list)
  /\ (forall err, main st = Returned (Some err) ->
        In (Failed err) it0
        \/ (err = Canceled /\ groupErr st <> None)
        \/ groupErr st = Some err).

(** Every object handed to [group.Go] either still has its operation
    running or satisfies [Done] in the world. *)
Definition settled {W : Type} (Done : W -> string -> Prop) (st : state W)
  : Prop :=
  forall name,
    In name (submitted st) ->
    Done (world st) name \/ In (mkWorker name Running) (workers st).

(** The local path [GetDirectory] computes for an object:
    [filepath.Join(localDir, relPath)] with
    [relPath = filepath.Rel(storageDir, name)]; none when [Rel] fails. *)
Definition localPathOf (storageDir localDir name : string) : option string :=
  match Filepath.Rel storageDir name with
  | Some relPath => Some (Filepath.Join [localDir; relPath])
  | None => None
  end.

(** The object [name] can be read in full: the reader opens and its stream
    ends without an error. *)
Definition readable (s : GCSStorage) (name : string) (bytes : list Byte.byte)
  : Prop :=
  exists reader,
    NewReader (client s) name = inl reader
    /\ readErr reader = None /\ content reader = bytes.

(** The local file of the object [name] holds the object's bytes, when the
    object can be read in full and has a local path. *)
Definition copied (s : GCSStorage) (storageDir localDir : string)
  (fs : LocalFS) (name : string) : Prop :=
  forall bytes localPath,
    readable s name bytes ->
    localPathOf storageDir localDir name = Some localPath ->
    lookup (files fs) localPath = Some bytes.

(* ===================================================================== *)
(** ** [cli/pkg/docker/run.go] *)
(* ===================================================================== *)

From Stdlib Require DecimalString.

Module Docker.

(** [container.ContainerCreateCreatedBody], the fields [Run] reads. *)
Record ContainerCreateCreatedBody : Type := mkCreated {
  ID : string;
  Warnings : list string
}.

(** What [ContainerWait] delivers, on one of its two channels: a
    [container.ContainerWaitOKBody] with its [Error] (nil, or a message)
    and its [StatusCode] on the result channel, or an error on the error
    channel. *)
Inductive waitAnswer : Type :=
| WaitResult (Error : option string) (StatusCode : Z)
| WaitError (err : error).

(** The Docker client, as [Run] uses it, for a container that comes to an
    end: the answer of each call.  [ContainerLogs] answers either with an
    error or with a stream; of the stream the model keeps the error, if
    any, with which [stdcopy.StdCopy] on it ends. *)
Record Client : Type := mkClient {
  ContainerCreate : string -> list string -> string
                    -> ContainerCreateCreatedBody + error;
  ContainerWait : string -> waitAnswer;
  ContainerStart : string -> option error;
  ContainerLogs : string -> option error + error
}.

(** What [Run] does that can be seen from outside, in order: its calls of
    the client, the warnings it prints, and the two deferred calls. *)
Inductive event : Type :=
| Create (image : string) (cmd : list string) (name : string)
| Warn (msg : string)
| Wait (containerID : string)
| Start (containerID : string)
| Logs (containerID : string)
| Close
| Cancel.

(** [%v] of an [int]. *)
Definition formatInt (n : Z) : string :=
  DecimalString.NilZero.string_of_int (Z.to_int n).

(** [waitUntilExit]: the status its channel delivers. *)
Definition waitUntilExit (c : Client) (containerID : string) : Z :=
  match ContainerWait c containerID with
  | WaitResult (Some _) _ => 125
  | WaitResult None StatusCode => StatusCode
  | WaitError _ => 125
  end.

(** [connectToLogs]: on success, what the channel it installs in
    [*errChan] delivers, the result of [stdcopy.StdCopy]. *)
Definition connectToLogs (c : Client) (containerID : string)
  : option error + error :=
  match ContainerLogs c containerID with
  | inr err => inr err
  | inl errCopy => inl errCopy
  end.

(** [Run]: what it returns and what it has done. *)
Definition Run (c : Client) (imageName : string) (cmd : list string)
  : option error * list event :=
  let containerName := imageName in
  match ContainerCreate c imageName cmd containerName with
  | inr err => (Some err, [Create imageName cmd containerName; Cancel])
  | inl createResponse =>
      let created :=
        (Create imageName cmd containerName
         :: map (fun warning => Warn ("WARNING: " ++ warning))
                (Warnings createResponse)
         ++ [Wait (ID createResponse)])%list in
      let status := waitUntilExit c (ID createResponse) in
      match ContainerStart c (ID createResponse) with
      | Some err =>
          (Some err, created ++ [Start (ID createResponse); Cancel])%list
      | None =>
          match connectToLogs c (ID createResponse) with
          | inr err =>
              (Some err,
               created ++ [Start (ID createResponse);
                           Logs (ID createResponse); Cancel])%list
          | inl errCopy =>
              let done :=
                (created ++ [Start (ID createResponse);
                             Logs (ID createResponse); Close; Cancel])%list in
              match errCopy with
              | Some err => (Some err, done)
              | None =>
                  if (status =? 0)%Z then (None, done)
                  else (Some (Errorf
                                ("Command exited with non-zero status code: "
                                 ++ formatInt status)),
                        done)
              end
          end
      end
  end.

(** A client whose calls succeed for the container [c1], with one warning
    at creation, and whose wait gives [answer]. *)
Definition clientWith (answer : waitAnswer) : Client :=
  mkClient (fun _ _ _ => inl (mkCreated "c1" ["no swap limit"]))
           (fun _ => answer)
           (fun _ => None)
           (fun _ => inl None).

End Docker.

(* ===================================================================== *)
(** * Properties *)
(* ===================================================================== *)

(** ** The library models on the paths of the examples *)

Example Clean_dotdot : Filepath.Clean "/tmp/out/../ab.txt" = "/tmp/ab.txt".
Proof. reflexivity. Qed.
Example Rel_child : Filepath.Rel "a" "a/c/d.txt" = Some "c/d.txt".
Proof. reflexivity. Qed.
Example Rel_sibling : Filepath.Rel "ab/cd" "ab/cde" = Some "../cde".
Proof. reflexivity. Qed.
Example Rel_root : Filepath.Rel "/" "/a/c" = Some "a/c".
Proof. reflexivity. Qed.
Example Rel_up : Filepath.Rel "a/b/c/d" "a/b" = Some "../..".
Proof. reflexivity. Qed.
Example Rel_err : Filepath.Rel "a" "/a" = None.
Proof. reflexivity. Qed.
Example Join_ex : Filepath.Join ["/tmp/out"; "c/d.txt"] = "/tmp/out/c/d.txt".
Proof. reflexivity. Qed.
Example Dir_ex : Filepath.Dir "/tmp/out/c/d.txt" = "/tmp/out/c".
Proof. reflexivity. Qed.
Example Base_ex : Filepath.Base "a/c/d.txt" = "d.txt".
Proof. reflexivity. Qed.
Example Base_slash : Filepath.Base "a/c/" = "c".
Proof. reflexivity. Qed.

(** ** Strings *)

Lemma substring_all (s : string) : substring 0 (String.length s) s = s.
Proof. induction s as [|c r IH]; simpl; [reflexivity | now rewrite IH]. Qed.

Lemma prefix_empty (s : string) : String.prefix "" s = true.
Proof. destruct s; reflexivity. Qed.

Lemma prefix_cons (a b : ascii) (s1 s2 : string) :
  String.prefix (String a s1) (String b s2) =
  if Ascii.eqb a b then String.prefix s1 s2 else false.
Proof.
  change (String.prefix (String a s1) (String b s2))
    with (if ascii_dec a b then String.prefix s1 s2 else false).
  destruct (ascii_dec a b) as [e|ne], (Ascii.eqb_spec a b);
    congruence || reflexivity.
Qed.

(** [strings.TrimPrefix(s, "/")] removes one leading slash, and only one. *)
Lemma TrimPrefix_slash (s : string) :
  Strings.TrimPrefix s "/" =
  match s with
  | String c r => if Ascii.eqb c "/" then r else s
  | EmptyString => s
  end.
Proof.
  destruct s as [|c r]; [reflexivity|].
  unfold Strings.TrimPrefix, Strings.HasPrefix.
  rewrite prefix_cons, prefix_empty, Ascii.eqb_sym.
  destruct (Ascii.eqb c "/"); [|reflexivity].
  cbn [String.length Nat.sub substring]. now rewrite Nat.sub_0_r, substring_all.
Qed.

Lemma HasSuffix_slash (s : string) :
  Strings.HasSuffix s "/" = endsWithSlash s.
Proof.
  unfold Strings.HasSuffix.
  induction s as [|c r IH]; [reflexivity|].
  destruct r as [|c' r'].
  - simpl. destruct (Ascii.eqb_spec c "/") as [->|ne]; [reflexivity|].
    destruct (String.eqb_spec (String c "") "/"); [congruence | reflexivity].
  - cbn [String.length endsWithSlash] in *. rewrite <- IH.
    simpl. now rewrite !Nat.sub_0_r.
Qed.

Lemma endsWithSlash_append (s : string) : endsWithSlash (s ++ "/") = true.
Proof.
  induction s as [|c r IH]; [reflexivity|].
  simpl. destruct (r ++ "/") eqn:E; [|exact IH].
  destruct r; discriminate.
Qed.

Lemma endsWithSlash_tail (c : ascii) (r : string) :
  r <> "" -> endsWithSlash (String c r) = endsWithSlash r.
Proof. destruct r; [congruence | reflexivity]. Qed.

Lemma withSlash_ends (dir : string) : endsWithSlash (withSlash dir) = true.
Proof.
  unfold withSlash. rewrite HasSuffix_slash.
  destruct (endsWithSlash dir) eqn:E; simpl; [exact E|].
  apply endsWithSlash_append.
Qed.

Lemma withSlash_fixed (s : string) : endsWithSlash s = true -> withSlash s = s.
Proof. intros E. unfold withSlash. now rewrite HasSuffix_slash, E. Qed.

Lemma Normalize_unfold (dir : string) :
  Normalize dir = Strings.TrimPrefix (withSlash dir) "/".
Proof. reflexivity. Qed.

(** [withSlash dir] starts with two slashes only when [dir] does. *)
Lemma withSlash_two_slashes (dir r : string) :
  withSlash dir = String "/" (String "/" r) ->
  Strings.HasPrefix dir "//" = true.
Proof.
  unfold withSlash. rewrite HasSuffix_slash.
  destruct (endsWithSlash dir) eqn:E; cbn [negb].
  - intros ->. unfold Strings.HasPrefix.
    now rewrite !prefix_cons, prefix_empty.
  - destruct dir as [|c [|c' d]]; cbn [append]; try discriminate.
    + intros H. injection H as -> _. discriminate.
    + intros H. injection H as -> -> _. unfold Strings.HasPrefix.
      now rewrite !prefix_cons, prefix_empty.
Qed.

(** ** Prefix normalization *)

Lemma Normalize_fixed (s : string) :
  endsWithSlash s = true -> Strings.HasPrefix s "/" = false -> Normalize s = s.
Proof.
  intros E P. rewrite Normalize_unfold, (withSlash_fixed _ E), TrimPrefix_slash.
  destruct s as [|c r]; [reflexivity|].
  unfold Strings.HasPrefix in P. rewrite prefix_cons, prefix_empty in P.
  rewrite Ascii.eqb_sym. now destruct (Ascii.eqb "/" c).
Qed.

(** C10, as the code has it: [Normalize (Normalize p) = Normalize p] for
    every [p] that does not begin with two slashes.  [strings.TrimPrefix]
    removes a single leading slash. *)
Theorem Normalize_idempotent (p : string) :
  Strings.HasPrefix p "//" = false ->
  Normalize (Normalize p) = Normalize p.
Proof.
  intros Hp. rewrite (Normalize_unfold p), TrimPrefix_slash.
  pose proof (withSlash_ends p) as E.
  destruct (withSlash p) as [|c r] eqn:Ew; [discriminate|].
  destruct (Ascii.eqb_spec c "/") as [->|ne].
  - destruct r as [|c2 r2]; [reflexivity|].
    rewrite endsWithSlash_tail in E by discriminate.
    apply Normalize_fixed; [exact E|].
    unfold Strings.HasPrefix. rewrite prefix_cons, prefix_empty.
    destruct (Ascii.eqb_spec "/" c2) as [<-|]; [|reflexivity].
    apply withSlash_two_slashes in Ew. congruence.
  - apply Normalize_fixed; [exact E|].
    unfold Strings.HasPrefix. rewrite prefix_cons, prefix_empty.
    destruct (Ascii.eqb_spec "/" c); [congruence | reflexivity].
Qed.

Lemma Normalize_idempotent_witness :
  Strings.HasPrefix "/a/b" "//" = false /\
  Normalize (Normalize "/a/b") = Normalize "/a/b".
Proof.
  split; [reflexivity | apply (Normalize_idempotent "/a/b"); reflexivity].
Defined.

(** C10, as stated, fails at [//a]: the first pass gives [/a/], the second
    [a/]. *)
Lemma Normalize_not_idempotent :
  ~ (forall p : string, Normalize (Normalize p) = Normalize p).
Proof. intros H. specialize (H "//a"). discriminate H. Qed.

(** A prefix that begins with two slashes is the only kind on which a
    second pass changes the result. *)
Lemma Normalize_two_slashes (p : string) :
  Strings.HasPrefix p "//" = true ->
  Normalize (Normalize p) <> Normalize p.
Proof.
  intros Hp. unfold Strings.HasPrefix in Hp.
  destruct p as [|a p']; [discriminate|]. rewrite prefix_cons in Hp.
  destruct (Ascii.eqb_spec "/" a) as [<-|]; [|discriminate].
  destruct p' as [|b r]; [discriminate|]. rewrite prefix_cons in Hp.
  destruct (Ascii.eqb_spec "/" b) as [<-|]; [|discriminate].
  pose proof (withSlash_ends (String "/" (String "/" r))) as E.
  assert (Ew : exists r', withSlash (String "/" (String "/" r))
                          = String "/" (String "/" r')).
  { unfold withSlash. destruct (negb _); cbn [append]; eauto. }
  destruct Ew as [r' Ew]. rewrite Ew in E.
  rewrite (Normalize_unfold (String "/" _)), Ew, TrimPrefix_slash.
  cbn [Ascii.eqb Bool.eqb]. 
  rewrite endsWithSlash_tail in E by discriminate.
  rewrite Normalize_unfold, (withSlash_fixed _ E), TrimPrefix_slash.
  cbn [Ascii.eqb Bool.eqb].
  intros H. apply (f_equal String.length) in H. cbn in H. lia.
Qed.

(** ** [Get] *)

(** C8: [Get] answers [NotExistError] exactly when opening the reader
    reports [storage.ErrObjectNotExist]; on a bucket without faults it
    returns the bytes stored at an existing key; every other failure of
    the backend comes back as an error that carries [gs://bucket/path]. *)
Theorem Get_results (s : GCSStorage) (path : string) :
  ((exists msg, Get s path = inr (NotExistError msg))
   <-> NewReader (client s) path = inr ErrObjectNotExist)
  /\ (forall ns bytes,
        client s = bucketOf ns -> lookup ns path = Some bytes ->
        Get s path = inl bytes)
  /\ (forall err,
        (NewReader (client s) path = inr err /\ err <> ErrObjectNotExist)
        \/ (exists reader, NewReader (client s) path = inl reader
                           /\ readErr reader = Some err) ->
        exists msg,
          Get s path = inr (Errorf msg)
          /\ Strings.Contains msg ("gs://" ++ bucketName s ++ "/" ++ path)).
Proof.
  unfold Get. repeat split.
  - intros [msg H]. destruct (NewReader (client s) path) as [rd|err].
    + destruct (readErr rd); discriminate.
    + destruct err; try discriminate. reflexivity.
  - intros ->. eauto.
  - intros ns bytes -> L. cbn. now rewrite L.
  - intros err [[-> ne] | [rd [-> ->]]].
    + destruct err; try congruence;
        (eexists; split; [reflexivity|]; eexists _, _; reflexivity).
    + eexists; split; [reflexivity|]. eexists _, _; reflexivity.
Qed.

Lemma Get_results_witness :
  Get (mkGCS "bucket" (bucketOf [("a/b.txt", [Byte.x01])])) "a/b.txt"
  = inl [Byte.x01].
Proof.
  apply (proj1 (proj2 (Get_results
           (mkGCS "bucket" (bucketOf [("a/b.txt", [Byte.x01])])) "a/b.txt"))
         [("a/b.txt", [Byte.x01])]); reflexivity.
Defined.

(** ** [Put] and [PutDirectory] *)

(** C9 fails on the code: both calls return nil and leave the namespace as
    it was, so that nothing is stored at [path]. *)
Theorem Put_silent_noop (ns : Namespace) (path localPath : string)
  (data : list Byte.byte) :
  Put ns path data = (ns, None)
  /\ PutDirectory ns localPath path = (ns, None)
  /\ lookup (fst (Put [] "a/b.txt" [Byte.x01])) "a/b.txt" = None.
Proof. repeat split. Qed.

(** ** [List] *)

(** C6 fails on the code: over [a/b.txt], [a/c/d.txt], [a/e.txt] the call
    [List("a")] returns the two object keys and, for the subdirectory, the
    empty [Name] of its record instead of [a/c/]. *)
Theorem List_example :
  List (mkGCS "bucket"
          (bucketOf [("a/b.txt", []); ("a/c/d.txt", []); ("a/e.txt", [])]))
       "a"
  = inl ["a/b.txt"; "a/e.txt"; ""].
Proof. reflexivity. Qed.

(** ** The Streaming Matcher *)

(** Whatever the loop sends after an error result: nothing. *)
Lemma listRecursiveLoop_error_last (s : GCSStorage) (folder : string)
  (filter : string -> bool) (it : ObjectIterator) :
  forall sent e before r rest,
    listRecursiveLoop s folder filter it = (sent, e) ->
    sent = (before ++ r :: rest)%list ->
    ~ isPath r ->
    rest = [] /\ e = Panicked.
Proof.
  induction it as [|[attrs|err] it' IH]; intros sent e before r rest Hrun Hsent Hr;
    cbn in Hrun.
  - injection Hrun as <- <-. destruct before; discriminate.
  - destruct (listRecursiveLoop s folder filter it') as [sent' e'] eqn:Hloop.
    destruct (filter (Name attrs)); injection Hrun as <- <-.
    + destruct before as [|b before'].
      * injection Hsent as <- _. exfalso. apply Hr. reflexivity.
      * injection Hsent as _ Hsent. exact (IH _ _ _ _ _ eq_refl Hsent Hr).
    + exact (IH _ _ _ _ _ eq_refl Hsent Hr).
  - injection Hrun as <- <-.
    destruct before as [|b [|b' before']]; try discriminate.
    injection Hsent as _ <-. split; reflexivity.
Qed.

(** C5: once [listRecursive], and so [MatchFilenamesRecursive], has sent an
    error result, it sends no success result after it. *)
Theorem listRecursive_no_path_after_error (s : GCSStorage)
  (folder : string) (filter : string -> bool)
  (before rest : list ListResult) (r : ListResult) :
  fst (listRecursive s folder filter) = (before ++ r :: rest)%list ->
  Error r <> None ->
  Forall (fun r' => ~ isPath r') rest.
Proof.
  intros Hsent Hr. unfold listRecursive in Hsent.
  destruct (listRecursiveLoop s (Normalize folder) filter
              (Objects (client s) (mkQuery (Normalize folder) "")))
    as [sent e] eqn:Hloop.
  destruct (listRecursiveLoop_error_last _ _ _ _ _ _ _ _ _ Hloop Hsent Hr)
    as [-> _].
  constructor.
Qed.

Lemma listRecursive_no_path_after_error_witness :
  Forall (fun r' => ~ isPath r') (@nil ListResult).
Proof.
  apply (listRecursive_no_path_after_error failingBucket "a" (fun _ => true)
           [mkResult "a/b.txt" None] []
           (mkResult "" (Some (Errorf "Failed to list gs://bucket/a/")))).
  - reflexivity.
  - discriminate.
Defined.

(** The same traversal, in full: the path, the error, and then the
    producer stops in a panic without closing the channel. *)
Lemma listRecursive_failing_example :
  listRecursive failingBucket "a" (fun _ => true)
  = ([mkResult "a/b.txt" None;
      mkResult "" (Some (Errorf "Failed to list gs://bucket/a/"))],
     Panicked).
Proof. reflexivity. Qed.

(** ** Listings of a bucket without faults *)

Lemma listObjects_recursive (ks : list string) (prefix : string) :
  listObjects ks (mkQuery prefix "")
  = map (fun k => mkAttrs k "")
        (filter (fun k => Strings.HasPrefix k prefix) ks).
Proof.
  unfold listObjects, directoryOf. cbn [Delimiter Prefix String.eqb].
  set (matching := filter _ ks).
  clearbody matching.
  assert (E1 : filter (fun _ : string => true) matching = matching).
  { induction matching as [|k m IH]; cbn; [reflexivity | now rewrite IH]. }
  assert (E2 : flat_map (fun _ : string => @nil string) matching = []).
  { clear E1. induction matching as [|k m IH]; cbn; [reflexivity | exact IH]. }
  rewrite E1, E2. cbn. apply app_nil_r.
Qed.

Lemma listRecursiveLoop_faultless (s : GCSStorage) (folder : string)
  (f : string -> bool) (names : list string) :
  listRecursiveLoop s folder f (map Item (map (fun k => mkAttrs k "") names))
  = (map (fun k => mkResult k None) (filter f names), Closed).
Proof.
  induction names as [|k names IH]; [reflexivity|].
  cbn. rewrite IH. destruct (f k); reflexivity.
Qed.

Lemma ListLoop_faultless (s : GCSStorage) (dir : string)
  (records : list ObjectAttrs) :
  forall results,
    ListLoop s dir (map Item records) results
    = inl (results ++ map Name records)%list.
Proof.
  induction records as [|a records IH]; intros results; cbn.
  - now rewrite app_nil_r.
  - rewrite IH, <- app_assoc. reflexivity.
Qed.

(** ** The Bounded Concurrent Applier: reasoning about runs *)

Section Runs.

Context {W : Type}.
Variable concurrency : Z.
Variable fn : W -> string -> W * option error.

(** A property kept by every step holds all along every schedule. *)
Lemma run_invariant (Inv : state W -> Prop) :
  (forall l st st', Inv st -> step concurrency fn l st = Some st' -> Inv st') ->
  forall schedule st st',
    Inv st -> run concurrency fn schedule st = Some st' -> Inv st'.
Proof.
  intros Hstep. induction schedule as [|l schedule IH]; intros st st' Hinv Hrun;
    cbn in Hrun.
  - now injection Hrun as <-.
  - destruct (step concurrency fn l st) as [st1|] eqn:E; [|discriminate].
    eauto.
Qed.

Lemma run_app (sched1 sched2 : list label) (st st1 : state W) :
  run concurrency fn sched1 st = Some st1 ->
  run concurrency fn (sched1 ++ sched2) st = run concurrency fn sched2 st1.
Proof.
  revert st. induction sched1 as [|l sched1 IH]; intros st H; cbn in *.
  - now injection H as <-.
  - destruct (step concurrency fn l st); [eauto | discriminate].
Qed.

End Runs.

(** Case analysis on an enabled step. *)
Ltac step_cases H :=
  unfold step, stepMain, stepAcquireCanceled, stepWork in H;
  repeat match type of H with
         | context [match ?x with _ => _ end] => destruct x eqn:?
         end;
  try discriminate H;
  injection H as <-; cbn [it cur workers groupErr cancelled main world
                          nextCalls submitted] in *.

(** *** What is visited *)

Section Visits.

Context {W : Type}.
Variable concurrency : Z.
Variable fn : W -> string -> W * option error.
Variable all : list string.

Lemma visiting_step (l : label) (st st' : state W) :
  visiting all st -> step concurrency fn l st = Some st' -> visiting all st'.
Proof.
  unfold visiting. intros V H. destruct l; step_cases H; cbn in *; eauto;
    try (rewrite <- app_assoc; exact V);
    try (rewrite app_nil_r in V; exact V);
    try (destruct (groupErr st); [exists []; rewrite app_nil_r|]; exact V);
    try (destruct r; assumption).
Qed.

Lemma visiting_run (schedule : list label) (st st' : state W) :
  visiting all st -> run concurrency fn schedule st = Some st' -> visiting all st'.
Proof. apply run_invariant, visiting_step. Qed.

Lemma visiting_prefix (st : state W) :
  visiting all st -> exists rest, (submitted st ++ rest)%list = all.
Proof.
  unfold visiting. destruct (main st) as [| | |[e|]]; eauto;
    intros <-; exists []; apply app_nil_r.
Qed.

End Visits.

(** *** A call can run to its end *)

Section Sequential.

Context {W : Type}.
Variable concurrency : Z.
Variable fn : W -> string -> W * option error.
Hypothesis one_token : (1 <= concurrency)%Z.


End Sequential.

(** ** Which keys a traversal visits *)

Lemma names_faultless (records : list ObjectAttrs) :
  names (map Item records) = map Name records
  /\ faultless (map Item records).
Proof.
  split.
  - unfold names.
    induction records as [|a records IH]; cbn; [reflexivity | now f_equal].
  - intros err Hin. apply in_map_iff in Hin as (a & Ha & _). discriminate.
Qed.

Lemma names_recursive (ns : Namespace) (prefix : string) :
  names (Objects (bucketOf ns) (mkQuery prefix ""))
  = filter (fun k => Strings.HasPrefix k prefix) (keys ns).
Proof.
  cbn [bucketOf Objects]. rewrite (proj1 (names_faultless _)).
  rewrite listObjects_recursive, map_map. cbn. apply map_id.
Qed.



Lemma Delete_removes_sibling :
  option_map (fun st => keys (world st))
    (Delete "bucket" [("a/b.txt", []); ("ab.txt", []); ("b.txt", [])] "a"
       [Main; Main; Main; Main; Work 0; Work 1])
  = Some ["b.txt"].
Proof. reflexivity. Qed.


(** ** [GetDirectory] *)

(** C7 fails on the code: with [storageDir = "a"] the listing includes
    [ab.txt]; [filepath.Rel("a", "ab.txt")] is [../ab.txt], and the file is
    created at [/tmp/ab.txt], outside the local directory [/tmp/out]. *)
Theorem GetDirectory_escapes :
  let s := mkGCS "bucket"
             (bucketOf [("a/b.txt", [Byte.x01]); ("ab.txt", [Byte.x02])]) in
  Filepath.Rel "a" "ab.txt" = Some "../ab.txt"
  /\ option_map (fun st => (main st, files (world st)))
       (GetDirectory s "a" "/tmp/out" (mkFS [] [])
          [Main; Main; Main; Main; Work 0; Work 0; Work 0;
           Work 0; Work 0; Work 0; Main; Main])
     = Some (Returned None,
             [("/tmp/ab.txt", [Byte.x02]); ("/tmp/out/b.txt", [Byte.x01])])
  /\ insideDir "/tmp/out" "/tmp/ab.txt" = false
  /\ insideDir "/tmp/out" "/tmp/out/b.txt" = true.
Proof. repeat split. Qed.

(** ** The token pool *)

Lemma count_app {A : Type} (f : A -> bool) (l1 l2 : list A) :
  count f (l1 ++ l2) = count f l1 + count f l2.
Proof. unfold count. now rewrite filter_app, length_app. Qed.

Lemma count_cons {A : Type} (f : A -> bool) (x : A) (l : list A) :
  count f (x :: l) = (if f x then 1 else 0) + count f l.
Proof. unfold count. cbn. now destruct (f x). Qed.

Lemma nth_error_parts {A : Type} (l : list A) (i : nat) (x : A) :
  nth_error l i = Some x -> l = (firstn i l ++ x :: skipn (S i) l)%list.
Proof.
  revert i. induction l as [|y l IH]; intros [|i] H; cbn in *; try discriminate.
  - now injection H as ->.
  - f_equal. now apply IH.
Qed.

Lemma count_at {A : Type} (f : A -> bool) (l : list A) (i : nat) (x : A) :
  nth_error l i = Some x ->
  count f l = count f (removeAt i l) + (if f x then 1 else 0).
Proof.
  intros H. rewrite (nth_error_parts l i x H) at 1. unfold removeAt.
  rewrite !count_app, count_cons. lia.
Qed.

Lemma count_replaceAt {A : Type} (f : A -> bool) (l : list A) (i : nat) (y : A) :
  count f (replaceAt i y l) = count f (removeAt i l) + (if f y then 1 else 0).
Proof. unfold replaceAt, removeAt. rewrite !count_app, count_cons. lia. Qed.


Section Tokens.

Context {W : Type}.
Variable concurrency : Z.
Variable fn : W -> string -> W * option error.

Lemma tokensInv_step (l : label) (st st' : state W) :
  tokensInv concurrency st -> step concurrency fn l st = Some st' -> tokensInv concurrency st'.
Proof.
  unfold tokensInv. intros [Hc Hb] H. destruct l; step_cases H; cbn.
  all: try (split; assumption).
  - (* a token is acquired *)
    rewrite count_app, count_cons. cbn.
    match goal with E : (1 <=? _)%Z = true |- _ => apply Z.leb_le in E end.
    lia.
  - (* [fn] returns *)
    match goal with E : nth_error _ _ = Some _ |- _ =>
      rewrite (count_at holdsToken _ _ _ E) in Hc end.
    rewrite count_replaceAt. unfold holdsToken in *. cbn.
    match goal with E : at_ _ = _ |- _ => rewrite E in Hc end.
    split; [exact Hc | exact Hb].
  - (* [sem.Release(1)] *)
    match goal with E : nth_error _ _ = Some _ |- _ =>
      rewrite (count_at holdsToken _ _ _ E) in Hc end.
    rewrite count_replaceAt. unfold holdsToken in *. cbn.
    match goal with E : at_ _ = _ |- _ => rewrite E in Hc end.
    lia.
  - match goal with E : nth_error _ _ = Some _ |- _ =>
      rewrite (count_at holdsToken _ _ _ E) in Hc end.
    unfold holdsToken in Hc at 2.
    match goal with E : at_ _ = _ |- _ => rewrite E in Hc end.
    split; [lia | exact Hb].
  - match goal with E : nth_error _ _ = Some _ |- _ =>
      rewrite (count_at holdsToken _ _ _ E) in Hc end.
    unfold holdsToken in Hc at 2.
    match goal with E : at_ _ = _ |- _ => rewrite E in Hc end.
    split; [lia | exact Hb].
  - match goal with E : nth_error _ _ = Some _ |- _ =>
      rewrite (count_at holdsToken _ _ _ E) in Hc end.
    unfold holdsToken in Hc at 2.
    match goal with E : at_ _ = _ |- _ => rewrite E in Hc end.
    split; [lia | exact Hb].
Qed.

End Tokens.



(** ** A capacity of zero or less *)

Section NoCapacity.

Context {W : Type}.
Variable concurrency : Z.
Variable fn : W -> string -> W * option error.
Variable it0 : ObjectIterator.
Hypothesis no_token : (concurrency <= 0)%Z.

Lemma stalled_step (l : label) (st st' : state W) :
  stalled it0 st -> step concurrency fn l st = Some st' -> stalled it0 st'.
Proof.
  unfold stalled. intros (Hw & Hs & Hc & Hg & Hx & Hm) H.
  destruct l; step_cases H; cbn; try congruence;
    try (match goal with
         | E : nth_error (workers st) ?i = Some _ |- _ =>
             rewrite Hw in E; destruct i; discriminate E
         | E : (1 <=? _)%Z = true |- _ => apply Z.leb_le in E; lia
         end).
  - (* [iterator.Done] *)
    destruct Hm as [<- Hn]. rewrite Hn. repeat split; assumption.
  - (* an object is listed *)
    destruct Hm as [<- Hn]. rewrite Hn. repeat split; try assumption. eauto.
  - (* the listing fails *)
    destruct Hm as [<- Hn]. rewrite Hn. cbn. repeat split; assumption.
  - (* [group.Wait()] returns *)
    destruct Hm as [Hn ->]. repeat split; assumption.
Qed.

End NoCapacity.

(** C4, as the code has it: with [concurrency <= 0] no check is made and
    no error is raised for it.  The call asks the listing for its first
    entry; it never hands an object to the operation; it returns nil when
    the listing is empty and the listing's error when the first entry is
    one, and it does not return when the first entry is an object. *)
Theorem applyRecursive_no_capacity {W : Type} (concurrency : Z)
  (fn : W -> string -> W * option error) (s : GCSStorage) (dir : string)
  (w : W) (schedule : list label) (st : state W) :
  (concurrency <= 0)%Z ->
  run concurrency fn schedule (applyRecursive s dir w) = Some st ->
  submitted st = [] /\ workers st = []
  /\ (forall r,
        main st = Returned r ->
        nextCalls st = 1
        /\ match Objects (client s) (mkQuery dir "") with
           | [] => r = None
           | Failed err :: _ => r = Some err
           | Item _ :: _ => False
           end).
Proof.
  intros Hn Hrun.
  assert (S : stalled (Objects (client s) (mkQuery dir "")) st).
  { eapply run_invariant; [apply (stalled_step concurrency fn _ Hn) | | exact Hrun].
    unfold stalled, applyRecursive. cbn. repeat split. }
  destruct S as (Hw & Hs & _ & _ & _ & Hm).
  split; [exact Hs | split; [exact Hw|]].
  intros r Hr. rewrite Hr in Hm. exact Hm.
Qed.

Lemma applyRecursive_no_capacity_witness :
  @nil string = [] /\ @nil worker = []
  /\ (forall r, Returned None = Returned r ->
                1 = 1 /\ r = None).
Proof.
  exact (applyRecursive_no_capacity 0 (fun (w : unit) _ => (w, None))
           (mkGCS "bucket" (bucketOf [])) "a" tt [Main; Main]
           (mkState [] 0%Z [] None false (Returned None) tt 1 [])
           ltac:(lia) eq_refl).
Defined.

(** C4, as stated, fails: with capacity 0 and an empty listing the call
    has consulted the listing and returns nil, no error at all. *)
Lemma applyRecursive_zero_returns_nil :
  ~ (forall (s : GCSStorage) (dir : string) (schedule : list label)
            (st : state unit) (r : option error),
       run 0 (fun w _ => (w, None)) schedule (applyRecursive s dir tt) = Some st ->
       main st = Returned r ->
       r <> None /\ nextCalls st = 0).
Proof.
  intros H.
  destruct (H (mkGCS "bucket" (bucketOf [])) "a" [Main; Main] _ None eq_refl eq_refl)
    as [Hr _].
  now apply Hr.
Qed.

(** ** Returning before the work is done *)

(** C1 fails on the code.  With one token, a listing that yields one
    object and then an error, and an operation that succeeds: the call
    returns the listing's error from inside the loop, without
    [group.Wait()], while the operation on the object is still running;
    the goroutine finishes after the call has returned. *)
Theorem applyRecursive_returns_early :
  let fn := fun (w : nat) (_ : string) => (S w, @None error) in
  option_map (fun st => (main st, workers st, world st))
    (run 1 fn [Main; Main; Main] (applyRecursive failingBucket "a" 0))
  = Some (Returned (Some (Fault "backend unavailable")),
          [mkWorker "a/b.txt" Running], 0)
  /\ option_map (fun st => (main st, workers st, world st))
       (run 1 fn [Main; Main; Main; Work 0; Work 0; Work 0]
          (applyRecursive failingBucket "a" 0))
     = Some (Returned (Some (Fault "backend unavailable")), [], 1).
Proof. split; reflexivity. Qed.

(** The other return inside the loop.  One token, three objects, and the
    operation fails on the first: when [sem.Acquire] gives up, the call
    returns [context.Canceled], not the operation's error that the group
    has recorded, and the operation on the second object is still
    running. *)
Lemma applyRecursive_returns_canceled :
  let fn := fun (w : unit) (name : string) =>
              (w, if String.eqb name "a/b.txt"
                  then Some (Fault "delete failed") else None) in
  option_map (fun st => (main st, groupErr st, workers st))
    (run 1 fn
       [Main; Main; Work 0; Work 0; Main; Main; Main; Work 0; AcquireCanceled]
       (applyRecursive
          (mkGCS "bucket"
             (bucketOf [("a/b.txt", []); ("a/c/d.txt", []); ("a/e.txt", [])]))
          "a" tt))
  = Some (Returned (Some Canceled), Some (Fault "delete failed"),
          [mkWorker "a/c/d.txt" Running]).
Proof. reflexivity. Qed.

Section Waiting.

Context {W : Type}.
Variable concurrency : Z.
Variable fn : W -> string -> W * option error.

(** The error slot of the group is written once. *)
Lemma groupErr_kept (l : label) (st st' : state W) (err : error) :
  groupErr st = Some err -> step concurrency fn l st = Some st' ->
  groupErr st' = Some err.
Proof. intros G H. destruct l; step_cases H; cbn; congruence. Qed.

(** A call that leaves through [group.Wait()], which is the only way out
    when the listing reports no fault and [sem.Acquire] is never
    cancelled, has no goroutine left and returns the group's error. *)
Lemma applyRecursive_waits (schedule : list label) :
  forall st st' : state W,
    faultless (it st) ->
    (forall r, main st = Returned r -> workers st = [] /\ r = groupErr st) ->
    ~ In AcquireCanceled schedule ->
    run concurrency fn schedule st = Some st' ->
    forall r, main st' = Returned r -> workers st' = [] /\ r = groupErr st'.
Proof.
  induction schedule as [|l schedule IH]; intros st st' F R NoC Hrun; cbn in Hrun.
  - now injection Hrun as <-.
  - destruct (step concurrency fn l st) as [st1|] eqn:H; [|discriminate].
    apply (IH st1 st'); [| | intros Hin; apply NoC; now right | exact Hrun].
    + destruct l; step_cases H; cbn; try exact F;
        intros e Hin; apply (F e); right; exact Hin.
    + destruct l; [| exfalso; apply NoC; now left |]; step_cases H; cbn;
        try discriminate.
      * exfalso. apply (F err). now left.
      * intros r Hr. injection Hr as <-. split; reflexivity.
      * intros r0 Hr. destruct (R _ Hr) as [Hw _].
        match goal with
        | N : nth_error (workers st) ?i = Some _ |- _ =>
            rewrite Hw in N; destruct i; discriminate N
        end.
      * intros r0 Hr. destruct (R _ Hr) as [Hw _].
        match goal with
        | N : nth_error (workers st) ?i = Some _ |- _ =>
            rewrite Hw in N; destruct i; discriminate N
        end.
      * intros r0 Hr. destruct (R _ Hr) as [Hw _].
        match goal with
        | N : nth_error (workers st) ?i = Some _ |- _ =>
            rewrite Hw in N; destruct i; discriminate N
        end.
      * intros r0 Hr. destruct (R _ Hr) as [Hw _].
        match goal with
        | N : nth_error (workers st) ?i = Some _ |- _ =>
            rewrite Hw in N; destruct i; discriminate N
        end.
      * intros r0 Hr. destruct (R _ Hr) as [Hw _].
        match goal with
        | N : nth_error (workers st) ?i = Some _ |- _ =>
            rewrite Hw in N; destruct i; discriminate N
        end.
Qed.

End Waiting.

(** ** The namespace of the specification's examples *)

Lemma MatchFilenamesRecursive_example :
  MatchFilenamesRecursive
    (mkGCS "bucket"
       (bucketOf [("a/b.txt", []); ("a/c/d.txt", []); ("a/e.txt", [])]))
    "a" "d.txt"
  = ([mkResult "a/c/d.txt" None], Closed).
Proof. reflexivity. Qed.

Lemma GetDirectory_example :
  let s := mkGCS "bucket"
             (bucketOf [("a/b.txt", [Byte.x01]); ("a/c/d.txt", [Byte.x02]);
                        ("a/e.txt", [Byte.x03])]) in
  option_map (fun st => (main st, files (world st)))
    (GetDirectory s "a" "/tmp/out" (mkFS [] [])
       [Main; Main; Work 0; Work 0; Work 0;
        Main; Main; Work 0; Work 0; Work 0;
        Main; Main; Work 0; Work 0; Work 0; Main; Main])
  = Some (Returned None,
          [("/tmp/out/e.txt", [Byte.x03]); ("/tmp/out/c/d.txt", [Byte.x02]);
           ("/tmp/out/b.txt", [Byte.x01])]).
Proof. reflexivity. Qed.

Lemma Delete_example :
  option_map (fun st => (main st, keys (world st)))
    (Delete "bucket" [("a/b.txt", []); ("a/c/d.txt", []); ("a/e.txt", [])]
       "a/c" [Main; Main; Work 0; Work 0; Work 0; Main; Main])
  = Some (Returned None, ["a/b.txt"; "a/e.txt"]).
Proof. reflexivity. Qed.

(* ===================================================================== *)
(** * Further properties of [gcs.go] *)
(* ===================================================================== *)

(** ** The Bounded Concurrent Applier, for every operation and capacity *)



Section Termination.

Context {W : Type}.
Variable concurrency : Z.
Variable fn : W -> string -> W * option error.




End Termination.



Section Progress.

Context {W : Type}.
Variable concurrency : Z.
Variable fn : W -> string -> W * option error.
Hypothesis one_token : (1 <= concurrency)%Z.




End Progress.



(** *** Listings that give nothing *)

Lemma idle_step {W : Type} (concurrency : Z)
  (fn : W -> string -> W * option error) (w : W) (l : label)
  (st st' : state W) :
  idle w st -> step concurrency fn l st = Some st' -> idle w st'.
Proof.
  unfold idle. intros (Hi & Hw & Hs & Hx & Hg & Hm) H.
  destruct l; step_cases H; cbn;
    try (destruct Hm as [Hm|[Hm|Hm]]; congruence);
    try (match goal with
         | E : nth_error (workers st) ?i = Some _ |- _ =>
             rewrite Hw in E; destruct i; discriminate E
         end).
  - repeat split; auto.
  - rewrite Hg. repeat split; auto.
Qed.

(** X3: when the listing has no entry, the call hands nothing to the
    operation, leaves the world as it is and can only return nil, which it
    does after two steps whatever the capacity. *)
Theorem applyRecursive_empty_listing {W : Type} (concurrency : Z)
  (fn : W -> string -> W * option error) (s : GCSStorage) (dir : string)
  (w : W) (schedule : list label) (st : state W) :
  Objects (client s) (mkQuery dir "") = [] ->
  run concurrency fn schedule (applyRecursive s dir w) = Some st ->
  submitted st = [] /\ workers st = [] /\ world st = w
  /\ (forall r, main st = Returned r -> r = None)
  /\ option_map main (run concurrency fn [Main; Main] (applyRecursive s dir w))
     = Some (Returned None).
Proof.
  intros He Hrun.
  assert (I : idle w st).
  { eapply run_invariant; [apply idle_step | | exact Hrun].
    unfold idle, applyRecursive. cbn. rewrite He. repeat split; auto. }
  destruct I as (_ & Hw & Hs & Hx & _ & Hm).
  repeat split; auto.
  - intros r Hr. destruct Hm as [Hm|[Hm|Hm]]; congruence.
  - unfold applyRecursive. rewrite He. reflexivity.
Qed.

Lemma applyRecursive_empty_listing_witness :
  option_map main
    (run 0 deleteObject [Main; Main]
       (applyRecursive (mkGCS "bucket" (bucketOf [("b.txt", [])])) "a"
          [("b.txt", [])]))
  = Some (Returned None).
Proof.
  exact (proj2 (proj2 (proj2 (proj2
    (applyRecursive_empty_listing 0 deleteObject
       (mkGCS "bucket" (bucketOf [("b.txt", [])])) "a" [("b.txt", [])]
       [Main] _ eq_refl eq_refl))))).
Defined.

Lemma failedAtOnce_step {W : Type} (concurrency : Z)
  (fn : W -> string -> W * option error) (w : W) (err : error)
  (rest : ObjectIterator) (l : label) (st st' : state W) :
  failedAtOnce w err rest st -> step concurrency fn l st = Some st' ->
  failedAtOnce w err rest st'.
Proof.
  unfold failedAtOnce. intros (Hw & Hs & Hx & Hm) H.
  destruct l; step_cases H; cbn;
    try (destruct Hm as [[Hm Hi]|Hm]; congruence);
    try (match goal with
         | E : nth_error (workers st) ?i = Some _ |- _ =>
             rewrite Hw in E; destruct i; discriminate E
         end).
  destruct Hm as [[Hm Hi]|Hm]; [|congruence].
  repeat split; auto. right. congruence.
Qed.

(** X4: when the listing fails before it has yielded an object, the call
    returns that error as it is, after one step; the operation is never
    invoked and the world is left as it was. *)
Theorem applyRecursive_listing_fails_first {W : Type} (concurrency : Z)
  (fn : W -> string -> W * option error) (s : GCSStorage) (dir : string)
  (w : W) (err : error) (rest : ObjectIterator) (schedule : list label)
  (st : state W) :
  Objects (client s) (mkQuery dir "") = Failed err :: rest ->
  run concurrency fn schedule (applyRecursive s dir w) = Some st ->
  submitted st = [] /\ workers st = [] /\ world st = w
  /\ (forall r, main st = Returned r -> r = Some err)
  /\ option_map main (run concurrency fn [Main] (applyRecursive s dir w))
     = Some (Returned (Some err)).
Proof.
  intros He Hrun.
  assert (I : failedAtOnce w err rest st).
  { eapply run_invariant; [apply failedAtOnce_step | | exact Hrun].
    unfold failedAtOnce, applyRecursive. cbn. rewrite He. repeat split; auto. }
  destruct I as (Hw & Hs & Hx & Hm).
  repeat split; auto.
  - intros r Hr. destruct Hm as [[Hm _]|Hm]; congruence.
  - unfold applyRecursive. rewrite He. reflexivity.
Qed.

Lemma applyRecursive_listing_fails_first_witness :
  option_map main
    (run 128 deleteObject [Main]
       (applyRecursive
          (mkGCS "bucket"
             (mkBucket (fun _ => [Failed (Fault "backend unavailable")])
                       (fun _ => inr ErrObjectNotExist)))
          "a" []))
  = Some (Returned (Some (Fault "backend unavailable"))).
Proof.
  exact (proj2 (proj2 (proj2 (proj2
    (applyRecursive_listing_fails_first 128 deleteObject
       (mkGCS "bucket"
          (mkBucket (fun _ => [Failed (Fault "backend unavailable")])
                    (fun _ => inr ErrObjectNotExist)))
       "a" [] (Fault "backend unavailable") [] [] _ eq_refl eq_refl))))).
Defined.

(** *** What a nil return means *)

Lemma doneWhenNil_step {W : Type} (concurrency : Z)
  (fn : W -> string -> W * option error) (l : label) (st st' : state W) :
  doneWhenNil st -> step concurrency fn l st = Some st' -> doneWhenNil st'.
Proof.
  unfold doneWhenNil. intros [Hwait Hnil] H.
  destruct l; step_cases H; cbn; split; intros Hm; try discriminate;
    try (match goal with
         | E : main st = _ |- _ => rewrite E in *
         end);
    try discriminate; auto;
    try (destruct (Hnil eq_refl) as (Hi & Hw & Hg);
         match goal with
         | E : nth_error (workers st) ?i = Some _ |- _ =>
             rewrite Hw in E; destruct i; discriminate E
         end).
  injection Hm as Hg. repeat split; auto.
Qed.

(** X5: a call returns nil only when its work is done: the listing is
    exhausted, every listed object has been handed to the operation, in
    listing order, no goroutine of the group is left, every token is back
    and the group has recorded no error. *)
Theorem applyRecursive_nil_means_done {W : Type} (concurrency : Z)
  (fn : W -> string -> W * option error) (s : GCSStorage) (dir : string)
  (w : W) (schedule : list label) (st : state W) :
  run concurrency fn schedule (applyRecursive s dir w) = Some st ->
  main st = Returned None ->
  it st = [] /\ workers st = [] /\ cur st = 0%Z /\ groupErr st = None
  /\ submitted st = names (Objects (client s) (mkQuery dir "")).
Proof.
  intros Hrun Hm.
  assert (D : doneWhenNil st).
  { eapply run_invariant; [apply doneWhenNil_step | | exact Hrun].
    split; cbn; discriminate. }
  assert (T : tokensInv concurrency st).
  { eapply run_invariant; [apply tokensInv_step | | exact Hrun].
    split; cbn; [reflexivity | lia]. }
  assert (V : visiting (names (Objects (client s) (mkQuery dir ""))) st).
  { eapply visiting_run; [|exact Hrun]. reflexivity. }
  destruct D as [_ D]. destruct (D Hm) as (Hi & Hw & Hg).
  destruct T as [Hc _]. rewrite Hw in Hc.
  unfold visiting in V. rewrite Hm in V.
  repeat split; auto.
Qed.

Lemma applyRecursive_nil_means_done_witness :
  @nil next = [] /\ @nil worker = [] /\ 0%Z = 0%Z /\ @None error = None
  /\ ["a/b.txt"]
     = names (Objects (bucketOf [("a/b.txt", []); ("b.txt", [])])
                      (mkQuery "a" "")).
Proof.
  exact (applyRecursive_nil_means_done 128 deleteObject
           (mkGCS "bucket" (bucketOf [("a/b.txt", []); ("b.txt", [])])) "a"
           [("a/b.txt", []); ("b.txt", [])]
           [Main; Main; Work 0; Work 0; Work 0; Main; Main]
           (mkState [] 0%Z [] None false (Returned None) [("b.txt", [])] 2
              ["a/b.txt"])
           eq_refl eq_refl).
Defined.

(** *** Where errors come from *)

Lemma Forall_parts {A : Type} (P : A -> Prop) (i : nat) (l : list A) :
  Forall P l -> Forall P (firstn i l) /\ Forall P (skipn i l).
Proof.
  intros F. rewrite <- (firstn_skipn i l) in F. now apply Forall_app in F.
Qed.

Lemma Forall_removeAt {A : Type} (P : A -> Prop) (i : nat) (l : list A) :
  Forall P l -> Forall P (removeAt i l).
Proof.
  intros F. unfold removeAt. apply Forall_app. split.
  - apply (Forall_parts P i l F).
  - apply (Forall_parts P (S i) l F).
Qed.

Lemma Forall_replaceAt {A : Type} (P : A -> Prop) (i : nat) (x : A)
  (l : list A) :
  Forall P l -> P x -> Forall P (replaceAt i x l).
Proof.
  intros F Px. unfold replaceAt. apply Forall_app. split.
  - apply (Forall_parts P i l F).
  - constructor; [exact Px | apply (Forall_parts P (S i) l F)].
Qed.

Lemma Forall_at {A : Type} (P : A -> Prop) (i : nat) (x : A) (l : list A) :
  Forall P l -> nth_error l i = Some x -> P x.
Proof.
  intros F H. rewrite Forall_forall in F. apply F.
  exact (nth_error_In _ _ H).
Qed.

Lemma accounted_more {W : Type} (fn : W -> string -> W * option error)
  (handed : list string) (name : string) (ws : list worker) :
  Forall (accounted fn handed) ws ->
  Forall (accounted fn (handed ++ [name])) ws.
Proof.
  apply Forall_impl. intros w [Hin Hr]. split; [|exact Hr].
  apply in_or_app. now left.
Qed.

Lemma provenance_step {W : Type} (concurrency : Z)
  (fn : W -> string -> W * option error) (it0 : ObjectIterator) (l : label)
  (st st' : state W) :
  provenance fn it0 st -> step concurrency fn l st = Some st' ->
  provenance fn it0 st'.
Proof.
  unfold provenance. intros (Hacc & Hg & Hc & [before Hb] & Hr) H.
  destruct l; step_cases H; cbn.
  - (* [iterator.Done] *)
    repeat split; try apply Hc; auto; [exists before; exact Hb | discriminate].
  - (* an object is listed *)
    repeat split; try apply Hc; auto; [|discriminate].
    exists (before ++ [Item attrs])%list. now rewrite <- app_assoc.
  - (* the listing fails *)
    repeat split; try apply Hc; auto.
    + exists (before ++ [Failed err])%list. now rewrite <- app_assoc.
    + intros err' E. injection E as <-. left. rewrite Hb.
      apply in_or_app. right. now left.
  - (* a token is acquired and a goroutine started *)
    repeat split; try apply Hc; auto; try discriminate.
    + apply Forall_app. split; [now apply accounted_more|].
      constructor; [|constructor]. split; cbn; [|exact I].
      apply in_or_app. right. now left.
    + intros err E. destruct (Hg err E) as (k & Hin & Hk).
      exists k. split; [apply in_or_app; now left | exact Hk].
    + exists before. exact Hb.
  - (* [group.Wait()] returns *)
    repeat split; try apply Hc; auto; [exists before; exact Hb|].
    intros err E. injection E as E. right. right. exact E.
  - (* [sem.Acquire] gives up *)
    repeat split; try apply Hc; auto; [exists before; exact Hb|].
    intros err E. injection E as <-. right. left.
    split; [reflexivity | now apply Hc].
  - (* the operation returns *)
    repeat split; try apply Hc; auto; [|exists before; exact Hb].
    apply Forall_replaceAt; [exact Hacc|].
    match goal with E : nth_error _ _ = Some _ |- _ =>
      destruct (Forall_at _ _ _ _ Hacc E) as [Hin _] end.
    split; cbn; [exact Hin|]. destruct o; [|exact I].
    eexists _, _. eassumption.
  - (* the token is released *)
    repeat split; try apply Hc; auto; [|exists before; exact Hb].
    apply Forall_replaceAt; [exact Hacc|].
    match goal with E : nth_error _ _ = Some _, P : at_ _ = _ |- _ =>
      destruct (Forall_at _ _ _ _ Hacc E) as [Hin Hres]; rewrite P in Hres end.
    split; cbn; [exact Hin | exact Hres].
  - (* a later error is dropped *)
    repeat split; try apply Hc; auto; [|exists before; exact Hb].
    now apply Forall_removeAt.
  - (* the first error is recorded and the context cancelled *)
    match goal with E : nth_error _ _ = Some _, P : at_ _ = _ |- _ =>
      destruct (Forall_at _ _ _ _ Hacc E) as [Hin Hres]; rewrite P in Hres end.
    repeat split; auto; try discriminate.
    + now apply Forall_removeAt.
    + intros err E. injection E as <-. eauto.
    + exists before. exact Hb.
    + intros err E. destruct (Hr err E) as [F|[[_ F]|F]];
        [now left | congruence | discriminate].
  - (* a goroutine ends without an error *)
    repeat split; try apply Hc; auto; [|exists before; exact Hb].
    now apply Forall_removeAt.
Qed.

(** X6: an error that a call returns is one of three: an error the listing
    reported; [context.Canceled], and then only after the group has
    recorded an error; or an error the operation itself returned for an
    object of the listing that was handed to it. *)
Theorem applyRecursive_error_provenance {W : Type} (concurrency : Z)
  (fn : W -> string -> W * option error) (s : GCSStorage) (dir : string)
  (w : W) (schedule : list label) (st : state W) (err : error) :
  run concurrency fn schedule (applyRecursive s dir w) = Some st ->
  main st = Returned (Some err) ->
  In (Failed err) (Objects (client s) (mkQuery dir ""))
  \/ (err = Canceled /\ exists first, groupErr st = Some first)
  \/ (exists name,
        In name (names (Objects (client s) (mkQuery dir "")))
        /\ returnedBy fn name err).
Proof.
  intros Hrun Hm.
  assert (P : provenance fn (Objects (client s) (mkQuery dir "")) st).
  { eapply run_invariant; [apply provenance_step | | exact Hrun].
    unfold provenance, applyRecursive. cbn.
    split; [constructor|]. split; [discriminate|].
    split; [split; [discriminate | intros E; now elim E]|].
    split; [now exists [] | discriminate]. }
  assert (V : visiting (names (Objects (client s) (mkQuery dir ""))) st).
  { eapply visiting_run; [|exact Hrun]. reflexivity. }
  destruct (visiting_prefix _ _ V) as [rest Hrest].
  destruct P as (_ & Hg & _ & _ & Hr).
  destruct (Hr err Hm) as [F|[[-> F]|F]].
  - now left.
  - right. left. split; [reflexivity|].
    destruct (groupErr st) as [first|]; [eauto | congruence].
  - right. right. destruct (Hg err F) as (name & Hin & Hname).
    exists name. split; [|exact Hname].
    rewrite <- Hrest. apply in_or_app. now left.
Qed.

Lemma applyRecursive_error_provenance_witness :
  In (Failed (Fault "backend unavailable"))
     (Objects (client failingBucket) (mkQuery "a" ""))
  \/ (Fault "backend unavailable" = Canceled
      /\ exists first, @None error = Some first)
  \/ (exists name,
        In name (names (Objects (client failingBucket) (mkQuery "a" "")))
        /\ returnedBy (fun (w : unit) (_ : string) => (w, @None error)) name
             (Fault "backend unavailable")).
Proof.
  exact (applyRecursive_error_provenance 1 (fun (w : unit) _ => (w, None))
           failingBucket "a" tt [Main; Main; Main]
           (mkState [] 1%Z [mkWorker "a/b.txt" Running] None false
              (Returned (Some (Fault "backend unavailable"))) tt 2
              ["a/b.txt"])
           (Fault "backend unavailable") eq_refl eq_refl).
Defined.

(** X7: the error slot of the group is written once.  From the moment the
    group has recorded an error, that error stays recorded whatever other
    operations return later, and the context of the call is cancelled. *)
Theorem applyRecursive_first_error_kept {W : Type} (concurrency : Z)
  (fn : W -> string -> W * option error) (s : GCSStorage) (dir : string)
  (w : W) (schedule rest : list label) (st st' : state W) (err : error) :
  run concurrency fn schedule (applyRecursive s dir w) = Some st ->
  groupErr st = Some err ->
  run concurrency fn rest st = Some st' ->
  groupErr st' = Some err /\ cancelled st = true /\ cancelled st' = true.
Proof.
  intros Hrun Hg Hrest.
  assert (P : provenance fn (Objects (client s) (mkQuery dir "")) st).
  { eapply run_invariant; [apply provenance_step | | exact Hrun].
    unfold provenance, applyRecursive. cbn.
    split; [constructor|]. split; [discriminate|].
    split; [split; [discriminate | intros E; now elim E]|].
    split; [now exists [] | discriminate]. }
  assert (P' : provenance fn (Objects (client s) (mkQuery dir "")) st').
  { eapply run_invariant; [apply provenance_step | exact P | exact Hrest]. }
  assert (G : groupErr st' = Some err).
  { eapply (run_invariant concurrency fn (fun x => groupErr x = Some err));
      [| exact Hg | exact Hrest].
    intros l x x' Hx Hstep. exact (groupErr_kept _ _ _ _ _ _ Hx Hstep). }
  destruct P as (_ & _ & Hc & _). destruct P' as (_ & _ & Hc' & _).
  split; [exact G|]. split; [apply Hc | apply Hc']; congruence.
Qed.

Lemma applyRecursive_first_error_kept_witness :
  groupErr (mkState [] 0%Z [] (Some (Fault "first")) true Waiting tt 3
              ["a/b.txt"; "a/c.txt"])
  = Some (Fault "first")
  /\ cancelled (mkState [] 1%Z [mkWorker "a/c.txt" Running]
                  (Some (Fault "first")) true Waiting tt 3
                  ["a/b.txt"; "a/c.txt"])
     = true
  /\ cancelled (mkState [] 0%Z [] (Some (Fault "first")) true Waiting tt 3
                  ["a/b.txt"; "a/c.txt"])
     = true.
Proof.
  exact (applyRecursive_first_error_kept 2
    (fun (w : unit) (name : string) =>
       (w, if String.eqb name "a/b.txt"
           then Some (Fault "first") else Some (Fault "second")))
    (mkGCS "bucket" (bucketOf [("a/b.txt", []); ("a/c.txt", [])])) "a" tt
    [Main; Main; Main; Main; Main; Work 0; Work 0; Work 0]
    [Work 0; Work 0; Work 0]
    (mkState [] 1%Z [mkWorker "a/c.txt" Running] (Some (Fault "first")) true
       Waiting tt 3 ["a/b.txt"; "a/c.txt"])
    (mkState [] 0%Z [] (Some (Fault "first")) true Waiting tt 3
       ["a/b.txt"; "a/c.txt"])
    (Fault "first") eq_refl eq_refl eq_refl).
Defined.

(** *** One object after the other *)

Section OneByOne.

Context {W : Type}.
Variable concurrency : Z.
Variable fn : W -> string -> W * option error.
Hypothesis one_token : (1 <= concurrency)%Z.

Lemma one_by_one (it0 : ObjectIterator) :
  forall st : state W,
    faultless it0 ->
    it st = it0 -> main st = Listing -> workers st = [] -> cur st = 0%Z ->
    exists schedule st',
      run concurrency fn schedule st = Some st'
      /\ main st'
         = Returned (snd (sequentially fn (names it0) (world st) (groupErr st)))
      /\ world st' = fst (sequentially fn (names it0) (world st) (groupErr st))
      /\ workers st' = []
      /\ submitted st' = (submitted st ++ names it0)%list.
Proof.
  induction it0 as [|[attrs|err] rest IH];
    intros [i c ws g cn m w n sb] F; cbn; intros -> -> -> ->.
  - exists [Main; Main]. eexists. cbn. split; [reflexivity|].
    repeat split. now rewrite app_nil_r.
  - destruct (fn w (Name attrs)) as [w' r] eqn:Efn.
    set (g' := match r, g with Some e, None => Some e | _, _ => g end).
    set (cn' := match r, g with Some _, None => true | _, _ => cn end).
    destruct (IH (mkState rest 0%Z [] g' cn' Listing w' (S n)
                    (sb ++ [Name attrs])%list))
      as (schedule & st' & Hrun & Hret & Hworld & Hws & Hsub);
      try reflexivity.
    { intros e Hin. apply (F e). now right. }
    cbn in Hret, Hworld, Hsub.
    exists ([Main; Main; Work 0; Work 0; Work 0] ++ schedule)%list, st'.
    split; [|repeat split].
    + rewrite (run_app concurrency fn _ schedule _
                 (mkState rest 0%Z [] g' cn' Listing w' (S n)
                    (sb ++ [Name attrs])%list)); [exact Hrun|].
      cbn. replace (1 <=? concurrency - 0)%Z with true
        by (symmetry; apply Z.leb_le; lia).
      cbn. rewrite Efn. cbn. subst g' cn'. destruct r, g; reflexivity.
    + rewrite Hret. exact eq_refl.
    + rewrite Hworld. exact eq_refl.
    + exact Hws.
    + rewrite Hsub, <- app_assoc. reflexivity.
  - exfalso. apply (F err). now left.
Qed.

End OneByOne.

(** X8: with one token or more and a listing without faults, there is a
    schedule on which the call does what the plain loop would do: the
    operation runs on the listed objects one after the other, in listing
    order, each on the world the one before has left, and the call returns
    the first error an operation returned, or nil. *)
Theorem applyRecursive_one_by_one {W : Type} (concurrency : Z)
  (fn : W -> string -> W * option error) (s : GCSStorage) (dir : string)
  (w : W) :
  (1 <= concurrency)%Z ->
  faultless (Objects (client s) (mkQuery dir "")) ->
  exists schedule st,
    run concurrency fn schedule (applyRecursive s dir w) = Some st
    /\ main st
       = Returned
           (snd (sequentially fn (names (Objects (client s) (mkQuery dir "")))
                   w None))
    /\ world st
       = fst (sequentially fn (names (Objects (client s) (mkQuery dir "")))
                w None)
    /\ workers st = []
    /\ submitted st = names (Objects (client s) (mkQuery dir "")).
Proof.
  intros Hn F.
  exact (one_by_one concurrency fn Hn _ (applyRecursive s dir w) F
           eq_refl eq_refl eq_refl eq_refl).
Qed.

Lemma applyRecursive_one_by_one_witness :
  exists schedule st,
    run 128 deleteObject schedule
        (applyRecursive (mkGCS "bucket" (bucketOf [("a/b.txt", [])])) "a"
           [("a/b.txt", [])])
    = Some st
    /\ main st = Returned None
    /\ world st = []
    /\ workers st = []
    /\ submitted st = ["a/b.txt"].
Proof.
  exact (applyRecursive_one_by_one 128 deleteObject
           (mkGCS "bucket" (bucketOf [("a/b.txt", [])])) "a" [("a/b.txt", [])]
           ltac:(lia)
           (proj2 (names_faultless
                     (listObjects (keys [("a/b.txt", [])]) (mkQuery "a" ""))))).
Defined.

(** *** The world under a call *)

Section World.

Context {W : Type}.
Variable concurrency : Z.
Variable fn : W -> string -> W * option error.
Variable it0 : ObjectIterator.

(** The objects of the goroutines are objects of the listing. *)
Lemma worker_listed (st : state W) (i : nat) (w : worker) :
  provenance fn it0 st -> visiting (names it0) st ->
  nth_error (workers st) i = Some w -> In (object w) (names it0).
Proof.
  intros (Hacc & _) V Hi.
  destruct (Forall_at _ _ _ _ Hacc Hi) as [Hin _].
  destruct (visiting_prefix _ _ V) as [rest <-].
  apply in_or_app. now left.
Qed.

Variable Q : W -> Prop.
Hypothesis Q_kept :
  forall w name, In name (names it0) -> Q w -> Q (fst (fn w name)).

Lemma world_step (l : label) (st st' : state W) :
  provenance fn it0 st -> visiting (names it0) st -> Q (world st) ->
  step concurrency fn l st = Some st' -> Q (world st').
Proof.
  intros P V HQ H. pose proof (worker_listed st) as L.
  destruct l; step_cases H; cbn; try exact HQ.
  match goal with
  | E : nth_error _ _ = Some ?w, F : fn _ _ = (?w', _) |- _ =>
      change w' with (fst (w', o)); rewrite <- F;
      apply Q_kept; [exact (L _ _ P V E) | exact HQ]
  end.
Qed.

Lemma world_run (schedule : list label) (st st' : state W) :
  provenance fn it0 st -> visiting (names it0) st -> Q (world st) ->
  run concurrency fn schedule st = Some st' -> Q (world st').
Proof.
  intros P V HQ Hrun.
  assert (H : provenance fn it0 st' /\ visiting (names it0) st'
              /\ Q (world st')).
  { eapply (run_invariant concurrency fn
              (fun x => provenance fn it0 x /\ visiting (names it0) x
                        /\ Q (world x)));
      [| split; [exact P | split; [exact V | exact HQ]] | exact Hrun].
    intros l x x' (Px & Vx & Qx) Hstep. split; [|split].
    - exact (provenance_step _ _ _ _ _ _ Px Hstep).
    - exact (visiting_step _ _ _ _ _ _ Vx Hstep).
    - exact (world_step _ _ _ Px Vx Qx Hstep). }
  apply H.
Qed.

End World.

Lemma provenance_init {W : Type} (fn : W -> string -> W * option error)
  (s : GCSStorage) (dir : string) (w : W) :
  provenance fn (Objects (client s) (mkQuery dir "")) (applyRecursive s dir w).
Proof.
  unfold provenance, applyRecursive. cbn.
  split; [constructor|]. split; [discriminate|].
  split; [split; [discriminate | intros E; now elim E]|].
  split; [now exists [] | discriminate].
Qed.

Lemma applyRecursive_world_invariant_aux {W : Type} (concurrency : Z)
  (fn : W -> string -> W * option error) (s : GCSStorage) (dir : string)
  (w : W) (Q : W -> Prop) (schedule : list label) (st : state W) :
  Q w ->
  (forall w' name,
     In name (names (Objects (client s) (mkQuery dir ""))) ->
     Q w' -> Q (fst (fn w' name))) ->
  run concurrency fn schedule (applyRecursive s dir w) = Some st ->
  Q (world st).
Proof.
  intros HQ Hkept Hrun.
  eapply (world_run concurrency fn _ Q Hkept schedule (applyRecursive s dir w));
    [apply provenance_init | reflexivity | exact HQ | exact Hrun].
Qed.

(** X9: the world changes only by the operation, run on objects of the
    listing.  A property of the world that holds at the start and that
    the operation keeps on every listed object holds at every moment of
    the call, under every schedule, also after a failure. *)
Theorem applyRecursive_world_invariant {W : Type} (concurrency : Z)
  (fn : W -> string -> W * option error) (s : GCSStorage) (dir : string)
  (w : W) (Q : W -> Prop) (schedule : list label) (st : state W) :
  Q w ->
  (forall w' name,
     In name (names (Objects (client s) (mkQuery dir ""))) ->
     Q w' -> Q (fst (fn w' name))) ->
  run concurrency fn schedule (applyRecursive s dir w) = Some st ->
  Q (world st).
Proof. apply applyRecursive_world_invariant_aux. Qed.

Lemma applyRecursive_world_invariant_witness :
  List.length
    (world (mkState [] 0%Z [mkWorker "a/b.txt" (Released None)] None false
              Listing [("b.txt", @nil Byte.byte)] 1 ["a/b.txt"]))
  <= 2.
Proof.
  apply (applyRecursive_world_invariant 128 deleteObject
           (mkGCS "bucket" (bucketOf [("a/b.txt", []); ("b.txt", [])])) "a"
           [("a/b.txt", []); ("b.txt", [])]
           (fun ns => List.length ns <= 2)
           [Main; Main; Work 0; Work 0]).
  - cbn. lia.
  - intros ns name _ H. unfold deleteObject.
    destruct (lookup ns name); cbn; [|exact H].
    unfold remove. pose proof (filter_length_le
      (fun kv : string * list Byte.byte => negb (String.eqb (fst kv) name)) ns).
    lia.
  - reflexivity.
Defined.

Section Settled.

Context {W : Type}.
Variable concurrency : Z.
Variable fn : W -> string -> W * option error.
Variable it0 : ObjectIterator.
Variable Done : W -> string -> Prop.
Hypothesis Done_made :
  forall w name, In name (names it0) -> Done (fst (fn w name)) name.
Hypothesis Done_kept :
  forall w name other,
    In name (names it0) -> In other (names it0) -> name <> other ->
    Done w other -> Done (fst (fn w name)) other.

Lemma In_removeAt {A : Type} (l : list A) (i : nat) (x y : A) :
  nth_error l i = Some x -> In y l -> y = x \/ In y (removeAt i l).
Proof.
  intros Hi Hin. rewrite (nth_error_parts l i x Hi) in Hin.
  unfold removeAt. apply in_app_or in Hin as [Hin|[<-|Hin]].
  - right. apply in_or_app. now left.
  - now left.
  - right. apply in_or_app. now right.
Qed.

Lemma In_replaceAt {A : Type} (l : list A) (i : nat) (x y : A) :
  In y (removeAt i l) -> In y (replaceAt i x l).
Proof.
  unfold removeAt, replaceAt. intros Hin.
  apply in_app_or in Hin as [Hin|Hin]; apply in_or_app;
    [now left | right; now right].
Qed.

Lemma settled_step (l : label) (st st' : state W) :
  provenance fn it0 st -> visiting (names it0) st ->
  settled Done st -> step concurrency fn l st = Some st' -> settled Done st'.
Proof.
  unfold settled. intros P V S H.
  pose proof (worker_listed fn it0 st) as L.
  destruct (visiting_prefix _ _ V) as [more Hmore].
  destruct l; step_cases H; cbn; try exact S.
  - (* a goroutine is started *)
    intros k Hin. apply in_app_or in Hin as [Hin|[<-|[]]].
    + destruct (S k Hin) as [D|R]; [now left|].
      right. apply in_or_app. now left.
    + right. apply in_or_app. right. now left.
  - (* the operation returns *)
    intros k Hin.
    match goal with F : fn _ _ = (?w', _) |- _ =>
      change w' with (fst (w', o)); rewrite <- F end.
    match goal with E : nth_error _ _ = Some _ |- _ =>
      pose proof (L _ _ P V E) as Lw end.
    assert (Lk : In k (names it0))
      by (rewrite <- Hmore; apply in_or_app; now left).
    destruct (string_dec (object w) k) as [<-|ne];
      [left; now apply Done_made|].
    destruct (S k Hin) as [D|R]; [left; now apply Done_kept|].
    match goal with E : nth_error _ _ = Some _ |- _ =>
      destruct (In_removeAt _ _ _ _ E R) as [Heq|Hin'] end.
    + rewrite <- Heq in ne. cbn in ne. congruence.
    + right. now apply In_replaceAt.
  - (* the token is released *)
    intros k Hin. destruct (S k Hin) as [D|R]; [now left|].
    match goal with E : nth_error _ _ = Some _ |- _ =>
      destruct (In_removeAt _ _ _ _ E R) as [Heq|Hin'] end.
    + rewrite <- Heq in *. cbn in *. discriminate.
    + right. now apply In_replaceAt.
  - intros k Hin. destruct (S k Hin) as [D|R]; [now left|].
    match goal with E : nth_error _ _ = Some _ |- _ =>
      destruct (In_removeAt _ _ _ _ E R) as [Heq|Hin'] end.
    + rewrite <- Heq in *. cbn in *. discriminate.
    + now right.
  - intros k Hin. destruct (S k Hin) as [D|R]; [now left|].
    match goal with E : nth_error _ _ = Some _ |- _ =>
      destruct (In_removeAt _ _ _ _ E R) as [Heq|Hin'] end.
    + rewrite <- Heq in *. cbn in *. discriminate.
    + now right.
  - intros k Hin. destruct (S k Hin) as [D|R]; [now left|].
    match goal with E : nth_error _ _ = Some _ |- _ =>
      destruct (In_removeAt _ _ _ _ E R) as [Heq|Hin'] end.
    + rewrite <- Heq in *. cbn in *. discriminate.
    + now right.
Qed.

Lemma settled_run (schedule : list label) (st st' : state W) :
  provenance fn it0 st -> visiting (names it0) st -> settled Done st ->
  run concurrency fn schedule st = Some st' -> settled Done st'.
Proof.
  intros P V S Hrun.
  assert (H : provenance fn it0 st' /\ visiting (names it0) st'
              /\ settled Done st').
  { eapply (run_invariant concurrency fn
              (fun x => provenance fn it0 x /\ visiting (names it0) x
                        /\ settled Done x));
      [| split; [exact P | split; [exact V | exact S]] | exact Hrun].
    intros l x x' (Px & Vx & Sx) Hstep. split; [|split].
    - exact (provenance_step _ _ _ _ _ _ Px Hstep).
    - exact (visiting_step _ _ _ _ _ _ Vx Hstep).
    - exact (settled_step _ _ _ Px Vx Sx Hstep). }
  apply H.
Qed.

End Settled.

Lemma applyRecursive_nil_postcondition_aux {W : Type} (concurrency : Z)
  (fn : W -> string -> W * option error) (s : GCSStorage) (dir : string)
  (w : W) (Done : W -> string -> Prop) (schedule : list label)
  (st : state W) :
  (forall w' name,
     In name (names (Objects (client s) (mkQuery dir ""))) ->
     Done (fst (fn w' name)) name) ->
  (forall w' name other,
     In name (names (Objects (client s) (mkQuery dir ""))) ->
     In other (names (Objects (client s) (mkQuery dir ""))) ->
     name <> other ->
     Done w' other -> Done (fst (fn w' name)) other) ->
  run concurrency fn schedule (applyRecursive s dir w) = Some st ->
  main st = Returned None ->
  forall name,
    In name (names (Objects (client s) (mkQuery dir ""))) ->
    Done (world st) name.
Proof.
  intros Hmade Hkept Hrun Hm name Hin.
  assert (S : settled Done st).
  { eapply (settled_run concurrency fn _ Done Hmade Hkept schedule
              (applyRecursive s dir w));
      [apply provenance_init | reflexivity | intros k [] | exact Hrun]. }
  assert (D : doneWhenNil st).
  { eapply run_invariant; [apply doneWhenNil_step | | exact Hrun].
    split; cbn; discriminate. }
  assert (V : visiting (names (Objects (client s) (mkQuery dir ""))) st).
  { eapply visiting_run; [|exact Hrun]. reflexivity. }
  destruct D as [_ D]. destruct (D Hm) as (_ & Hw & _).
  unfold visiting in V. rewrite Hm in V. rewrite <- V in Hin.
  destruct (S name Hin) as [Hd|Hr]; [exact Hd|].
  rewrite Hw in Hr. destruct Hr.
Qed.

(** X10: what the operation achieves for an object of the listing, and no
    operation on another object of the listing undoes, holds for every
    object of the listing once the call has returned nil. *)
Theorem applyRecursive_nil_postcondition {W : Type} (concurrency : Z)
  (fn : W -> string -> W * option error) (s : GCSStorage) (dir : string)
  (w : W) (Done : W -> string -> Prop) (schedule : list label)
  (st : state W) :
  (forall w' name,
     In name (names (Objects (client s) (mkQuery dir ""))) ->
     Done (fst (fn w' name)) name) ->
  (forall w' name other,
     In name (names (Objects (client s) (mkQuery dir ""))) ->
     In other (names (Objects (client s) (mkQuery dir ""))) ->
     name <> other ->
     Done w' other -> Done (fst (fn w' name)) other) ->
  run concurrency fn schedule (applyRecursive s dir w) = Some st ->
  main st = Returned None ->
  forall name,
    In name (names (Objects (client s) (mkQuery dir ""))) ->
    Done (world st) name.
Proof. apply applyRecursive_nil_postcondition_aux. Qed.

Lemma lookup_remove (ns : Namespace) (name key : string) :
  lookup (remove ns name) key
  = if String.eqb name key then None else lookup ns key.
Proof.
  unfold remove. induction ns as [|[k v] ns IH]; cbn.
  - now destruct (String.eqb name key).
  - destruct (String.eqb_spec k name) as [->|ne]; cbn.
    + rewrite IH. destruct (String.eqb_spec name key); reflexivity.
    + rewrite IH. destruct (String.eqb_spec k key) as [->|ne'];
        [|reflexivity].
      destruct (String.eqb_spec name key); congruence.
Qed.

Lemma lookup_deleteObject (ns : Namespace) (name key : string) :
  lookup (fst (deleteObject ns name)) key
  = if String.eqb name key then None else lookup ns key.
Proof.
  unfold deleteObject. destruct (lookup ns name) eqn:E; cbn.
  - apply lookup_remove.
  - destruct (String.eqb_spec name key) as [<-|]; [exact E | reflexivity].
Qed.

Lemma lookup_keys (ns : Namespace) (key : string) :
  In key (keys ns) <-> lookup ns key <> None.
Proof.
  unfold keys. induction ns as [|[k v] ns IH]; cbn.
  - split; [intros [] | congruence].
  - destruct (String.eqb_spec k key) as [->|ne].
    + split; [discriminate | now left].
    + rewrite <- IH. split; [intros [?|?]; [congruence | assumption] | now right].
Qed.

Lemma applyRecursive_nil_postcondition_witness :
  lookup [("b.txt", @nil Byte.byte)] "a/b.txt" = None.
Proof.
  apply (applyRecursive_nil_postcondition 128 deleteObject
           (mkGCS "bucket" (bucketOf [("a/b.txt", []); ("b.txt", [])])) "a"
           [("a/b.txt", []); ("b.txt", [])]
           (fun ns name => lookup ns name = None)
           [Main; Main; Work 0; Work 0; Work 0; Main; Main]
           (mkState [] 0%Z [] None false (Returned None) [("b.txt", [])] 2
              ["a/b.txt"])).
  - intros ns name _. rewrite lookup_deleteObject. now rewrite String.eqb_refl.
  - intros ns name other _ _ _ H. rewrite lookup_deleteObject, H.
    now destruct (String.eqb name other).
  - reflexivity.
  - reflexivity.
  - now left.
Defined.

(** ** [Delete] *)

(** While [Delete] runs, and after it, whatever it returns. *)
Lemma Delete_lookup_outside (bucket : string) (ns : Namespace) (path : string)
  (schedule : list label) (st : state Namespace) (key : string) :
  Delete bucket ns path schedule = Some st ->
  Strings.HasPrefix key path = false ->
  lookup (world st) key = lookup ns key.
Proof.
  intros Hrun Hp. unfold Delete in Hrun.
  apply (applyRecursive_world_invariant_aux 128 deleteObject
           (mkGCS bucket (bucketOf ns)) path ns
           (fun w => lookup w key = lookup ns key) schedule st);
    [reflexivity | | exact Hrun].
  intros w name Hin Hw. rewrite lookup_deleteObject.
  destruct (String.eqb_spec name key) as [->|]; [|exact Hw].
  cbn [client] in Hin. rewrite names_recursive in Hin.
  apply filter_In in Hin as [_ Hin]. congruence.
Qed.

Lemma Delete_lookup_shrinks (bucket : string) (ns : Namespace) (path : string)
  (schedule : list label) (st : state Namespace) (key : string) :
  Delete bucket ns path schedule = Some st ->
  lookup (world st) key = None \/ lookup (world st) key = lookup ns key.
Proof.
  intros Hrun. unfold Delete in Hrun.
  apply (applyRecursive_world_invariant_aux 128 deleteObject
           (mkGCS bucket (bucketOf ns)) path ns
           (fun w => lookup w key = None \/ lookup w key = lookup ns key)
           schedule st);
    [now right | | exact Hrun].
  intros w name _ Hw. rewrite lookup_deleteObject.
  destruct (String.eqb name key); [now left | exact Hw].
Qed.

Lemma Delete_nil_lookup (bucket : string) (ns : Namespace) (path : string)
  (schedule : list label) (st : state Namespace) (key : string) :
  Delete bucket ns path schedule = Some st ->
  main st = Returned None ->
  lookup (world st) key
  = if Strings.HasPrefix key path then None else lookup ns key.
Proof.
  intros Hrun Hm. destruct (Strings.HasPrefix key path) eqn:Hp;
    [|exact (Delete_lookup_outside _ _ _ _ _ _ Hrun Hp)].
  destruct (lookup ns key) as [bytes|] eqn:L.
  - apply (applyRecursive_nil_postcondition_aux 128 deleteObject
             (mkGCS bucket (bucketOf ns)) path ns
             (fun w name => lookup w name = None) schedule st).
    + intros w name _. rewrite lookup_deleteObject. now rewrite String.eqb_refl.
    + intros w name other _ _ _ H. rewrite lookup_deleteObject, H.
      now destruct (String.eqb name other).
    + exact Hrun.
    + exact Hm.
    + cbn [client]. rewrite names_recursive. apply filter_In. split; [|exact Hp].
      apply lookup_keys. congruence.
  - destruct (Delete_lookup_shrinks _ _ _ _ _ key Hrun) as [H|H]; congruence.
Qed.

(** X11: [Delete] touches nothing outside its prefix and writes nothing:
    at every moment of the call, whatever it goes on to return, a key that
    does not start with [path] holds the bytes it held, and a key that
    starts with it holds those bytes or is gone. *)
Theorem Delete_keeps_other_keys (bucket : string) (ns : Namespace)
  (path : string) (schedule : list label) (st : state Namespace)
  (key : string) :
  Delete bucket ns path schedule = Some st ->
  (Strings.HasPrefix key path = false -> lookup (world st) key = lookup ns key)
  /\ (lookup (world st) key = None \/ lookup (world st) key = lookup ns key).
Proof.
  intros Hrun. split.
  - exact (Delete_lookup_outside _ _ _ _ _ _ Hrun).
  - exact (Delete_lookup_shrinks _ _ _ _ _ _ Hrun).
Qed.

Lemma Delete_keeps_other_keys_witness :
  (Strings.HasPrefix "b.txt" "a" = false ->
   lookup [("b.txt", [Byte.x02])] "b.txt"
   = lookup [("a/b.txt", [Byte.x01]); ("b.txt", [Byte.x02])] "b.txt")
  /\ (lookup [("b.txt", [Byte.x02])] "b.txt" = None
      \/ lookup [("b.txt", [Byte.x02])] "b.txt"
         = lookup [("a/b.txt", [Byte.x01]); ("b.txt", [Byte.x02])] "b.txt").
Proof.
  exact (Delete_keeps_other_keys "bucket"
           [("a/b.txt", [Byte.x01]); ("b.txt", [Byte.x02])] "a"
           [Main; Main; Work 0]
           (mkState [] 1%Z [mkWorker "a/b.txt" (Finished None)] None false
              Listing [("b.txt", [Byte.x02])] 1 ["a/b.txt"])
           "b.txt" eq_refl).
Defined.

(** X12: when [Delete] returns nil, every key that starts with [path],
    the key [path] itself included, is gone, and every other key holds
    the bytes it held. *)
Theorem Delete_nil_removes_prefix (bucket : string) (ns : Namespace)
  (path : string) (schedule : list label) (st : state Namespace)
  (key : string) :
  Delete bucket ns path schedule = Some st ->
  main st = Returned None ->
  lookup (world st) key
  = if Strings.HasPrefix key path then None else lookup ns key.
Proof. apply Delete_nil_lookup. Qed.

Lemma Delete_nil_removes_prefix_witness :
  lookup [("b.txt", [Byte.x02])] "a/b.txt"
  = if Strings.HasPrefix "a/b.txt" "a" then None
    else lookup [("a/b.txt", [Byte.x01]); ("b.txt", [Byte.x02])] "a/b.txt".
Proof.
  exact (Delete_nil_removes_prefix "bucket"
           [("a/b.txt", [Byte.x01]); ("b.txt", [Byte.x02])] "a"
           [Main; Main; Work 0; Work 0; Work 0; Main; Main]
           (mkState [] 0%Z [] None false (Returned None)
              [("b.txt", [Byte.x02])] 2 ["a/b.txt"])
           "a/b.txt" eq_refl eq_refl).
Defined.

Lemma sequentially_deleteObject (objects : list string) :
  forall (ns : Namespace) (first : option error),
    NoDup objects ->
    (forall name, In name objects -> lookup ns name <> None) ->
    snd (sequentially deleteObject objects ns first) = first.
Proof.
  induction objects as [|name rest IH]; intros ns first ND Hin; cbn;
    [reflexivity|].
  unfold deleteObject at 1.
  destruct (lookup ns name) eqn:L; [|elim (Hin name (or_introl eq_refl) L)].
  inversion ND as [|? ? Hnot ND']; subst.
  rewrite IH; [reflexivity | exact ND' |].
  intros other Hother. rewrite lookup_remove.
  destruct (String.eqb_spec name other) as [->|]; [contradiction|].
  apply Hin. now right.
Qed.

(** X13: on a bucket that holds each key once, [Delete] can succeed: for
    every path there is a schedule on which it returns nil with no
    goroutine left. *)
Theorem Delete_can_succeed (bucket : string) (ns : Namespace) (path : string) :
  NoDup (keys ns) ->
  exists schedule st,
    Delete bucket ns path schedule = Some st
    /\ main st = Returned None
    /\ workers st = []
    /\ DeleteResult bucket path None = None.
Proof.
  intros ND.
  destruct (one_by_one 128 deleteObject ltac:(lia)
              (Objects (bucketOf ns) (mkQuery path ""))
              (applyRecursive (mkGCS bucket (bucketOf ns)) path ns))
    as (schedule & st & Hrun & Hm & _ & Hw & _); try reflexivity.
  { apply names_faultless. }
  exists schedule, st. split; [exact Hrun|]. split; [|split; [exact Hw|reflexivity]].
  rewrite Hm. cbn [world groupErr applyRecursive]. f_equal.
  rewrite names_recursive. apply sequentially_deleteObject.
  - now apply NoDup_filter.
  - intros name Hin. apply filter_In in Hin as [Hin _]. now apply lookup_keys.
Qed.

Lemma Delete_can_succeed_witness :
  exists schedule st,
    Delete "bucket" [("a/b.txt", []); ("a/c/d.txt", [])] "a" schedule = Some st
    /\ main st = Returned None
    /\ workers st = []
    /\ DeleteResult "bucket" "a" None = None.
Proof.
  apply (Delete_can_succeed "bucket" [("a/b.txt", []); ("a/c/d.txt", [])] "a").
  repeat constructor; cbn; intuition discriminate.
Defined.

(** X14: [Get] after [Delete].  Once [Delete(path)] has returned nil,
    [Get] of a key that starts with [path] answers [NotExistError], and
    [Get] of any other key answers what it answered before. *)
Theorem Get_after_Delete (bucket : string) (ns : Namespace) (path : string)
  (schedule : list label) (st : state Namespace) (key : string) :
  Delete bucket ns path schedule = Some st ->
  main st = Returned None ->
  Get (mkGCS bucket (bucketOf (world st))) key
  = if Strings.HasPrefix key path
    then inr (NotExistError ("Get: path does not exist: " ++ key))
    else Get (mkGCS bucket (bucketOf ns)) key.
Proof.
  intros Hrun Hm. pose proof (Delete_nil_lookup _ _ _ _ _ key Hrun Hm) as L.
  unfold Get. cbn [client bucketOf NewReader bucketName]. rewrite L.
  destruct (Strings.HasPrefix key path); reflexivity.
Qed.

Lemma Get_after_Delete_witness :
  Get (mkGCS "bucket" (bucketOf [("b.txt", [Byte.x02])])) "a/b.txt"
  = if Strings.HasPrefix "a/b.txt" "a"
    then inr (NotExistError ("Get: path does not exist: " ++ "a/b.txt"))
    else Get (mkGCS "bucket"
                (bucketOf [("a/b.txt", [Byte.x01]); ("b.txt", [Byte.x02])]))
             "a/b.txt".
Proof.
  exact (Get_after_Delete "bucket"
           [("a/b.txt", [Byte.x01]); ("b.txt", [Byte.x02])] "a"
           [Main; Main; Work 0; Work 0; Work 0; Main; Main]
           (mkState [] 0%Z [] None false (Returned None)
              [("b.txt", [Byte.x02])] 2 ["a/b.txt"])
           "a/b.txt" eq_refl eq_refl).
Defined.

Lemma Delete_nil_no_prefix_key (bucket : string) (ns : Namespace)
  (path : string) (schedule : list label) (st : state Namespace) :
  Delete bucket ns path schedule = Some st ->
  main st = Returned None ->
  filter (fun k => Strings.HasPrefix k path) (keys (world st)) = [].
Proof.
  intros Hrun Hm.
  destruct (filter _ (keys (world st))) as [|k l] eqn:E; [reflexivity|].
  assert (Hin : In k (filter (fun k => Strings.HasPrefix k path)
                        (keys (world st)))) by (rewrite E; now left).
  apply filter_In in Hin as [Hin Hp]. apply lookup_keys in Hin.
  rewrite (Delete_nil_lookup _ _ _ _ _ k Hrun Hm), Hp in Hin. congruence.
Qed.

(** X15: listing after [Delete].  Once [Delete(path)] has returned nil, a
    recursive traversal of the bucket, under any folder and with any
    filter, sends no key that starts with [path], and it closes the
    channel. *)
Theorem listRecursive_after_Delete (bucket : string) (ns : Namespace)
  (path : string) (schedule : list label) (st : state Namespace)
  (folder : string) (f : string -> bool) (r : ListResult) :
  Delete bucket ns path schedule = Some st ->
  main st = Returned None ->
  snd (listRecursive (mkGCS bucket (bucketOf (world st))) folder f) = Closed
  /\ (In r (fst (listRecursive (mkGCS bucket (bucketOf (world st))) folder f)) ->
      isPath r /\ Strings.HasPrefix (Path r) path = false).
Proof.
  intros Hrun Hm. unfold listRecursive. cbn [client bucketOf Objects].
  rewrite listObjects_recursive, listRecursiveLoop_faultless.
  split; [reflexivity|]. cbn [fst]. intros Hin.
  apply in_map_iff in Hin as (k & <- & Hk). split; [reflexivity|]. cbn [Path].
  apply filter_In in Hk as [Hk _]. apply filter_In in Hk as [Hk _].
  apply lookup_keys in Hk.
  rewrite (Delete_nil_lookup _ _ _ _ _ k Hrun Hm) in Hk.
  destruct (Strings.HasPrefix k path); congruence.
Qed.

Lemma listRecursive_after_Delete_witness :
  snd (listRecursive (mkGCS "bucket" (bucketOf [("a/b.txt", [])])) "a"
         (fun _ => true))
  = Closed
  /\ (In (mkResult "a/b.txt" None)
         (fst (listRecursive (mkGCS "bucket" (bucketOf [("a/b.txt", [])])) "a"
                 (fun _ => true))) ->
      isPath (mkResult "a/b.txt" None)
      /\ Strings.HasPrefix (Path (mkResult "a/b.txt" None)) "a/c" = false).
Proof.
  exact (listRecursive_after_Delete "bucket"
           [("a/b.txt", []); ("a/c/d.txt", [])] "a/c"
           [Main; Main; Work 0; Work 0; Work 0; Main; Main]
           (mkState [] 0%Z [] None false (Returned None) [("a/b.txt", [])] 2
              ["a/c/d.txt"])
           "a" (fun _ => true) (mkResult "a/b.txt" None) eq_refl eq_refl).
Defined.

(** X16: [Delete] a second time.  Once [Delete(path)] has returned nil, a
    second [Delete(path)] finds nothing to list: it starts no goroutine,
    leaves the bucket as it is and can only return nil. *)
Theorem Delete_again (bucket : string) (ns : Namespace) (path : string)
  (schedule again : list label) (st st2 : state Namespace) :
  Delete bucket ns path schedule = Some st ->
  main st = Returned None ->
  Delete bucket (world st) path again = Some st2 ->
  submitted st2 = [] /\ world st2 = world st
  /\ (forall r, main st2 = Returned r -> r = None).
Proof.
  intros Hrun Hm Hagain. unfold Delete in Hagain.
  assert (E : Objects (bucketOf (world st)) (mkQuery path "") = []).
  { cbn [bucketOf Objects]. rewrite listObjects_recursive.
    now rewrite (Delete_nil_no_prefix_key _ _ _ _ _ Hrun Hm). }
  assert (I : idle (world st) st2).
  { eapply run_invariant; [apply idle_step | | exact Hagain].
    unfold idle, applyRecursive. cbn [it workers submitted world groupErr main client].
    rewrite E. repeat split; auto. }
  destruct I as (_ & _ & Hs & Hw & _ & Hmain).
  repeat split; auto.
  intros r Hr. destruct Hmain as [H|[H|H]]; congruence.
Qed.

Lemma Delete_again_witness :
  submitted (mkState [] 0%Z [] None false (Returned None)
               [("b.txt", @nil Byte.byte)] 1 [])
  = []
  /\ world (mkState [] 0%Z [] None false (Returned None)
              [("b.txt", @nil Byte.byte)] 1 [])
     = [("b.txt", [])]
  /\ (forall r, Returned None = Returned r -> r = None).
Proof.
  exact (Delete_again "bucket" [("a/b.txt", []); ("b.txt", [])] "a"
           [Main; Main; Work 0; Work 0; Work 0; Main; Main] [Main; Main]
           (mkState [] 0%Z [] None false (Returned None) [("b.txt", [])] 2
              ["a/b.txt"])
           (mkState [] 0%Z [] None false (Returned None) [("b.txt", [])] 1 [])
           eq_refl eq_refl eq_refl).
Defined.

(** ** [List] *)

Lemma ListLoop_all_or_nothing (s : GCSStorage) (dir : string)
  (it : ObjectIterator) :
  forall results,
    (faultless it -> ListLoop s dir it results = inl (results ++ names it)%list)
    /\ (forall err, In (Failed err) it ->
          ListLoop s dir it results
          = inr (Errorf ("Failed to list gs://" ++ bucketName s ++ "/" ++ dir))).
Proof.
  induction it as [|[attrs|err0] rest IH]; intros results; cbn.
  - split; [intros _; now rewrite app_nil_r | intros err []].
  - destruct (IH (results ++ [Name attrs])%list) as [Hok Hfail]. split.
    + intros F. rewrite Hok, <- app_assoc; [reflexivity|].
      intros e Hin. apply (F e). now right.
    + intros err [Hin|Hin]; [discriminate | exact (Hfail err Hin)].
  - split; [|reflexivity].
    intros F. exfalso. apply (F err0). now left.
Qed.

(** X17: [List] gives all or nothing.  When the listing reports no fault
    it returns the [Name] of every record, in listing order; when the
    listing reports a fault at any point it returns no entry at all but an
    error, whose message names the bucket and the normalized directory and
    not the cause. *)
Theorem List_all_or_nothing (s : GCSStorage) (dir : string) :
  (faultless (Objects (client s) (mkQuery (Normalize dir) "/")) ->
   List s dir = inl (names (Objects (client s) (mkQuery (Normalize dir) "/"))))
  /\ (forall err,
        In (Failed err) (Objects (client s) (mkQuery (Normalize dir) "/")) ->
        List s dir
        = inr (Errorf ("Failed to list gs://" ++ bucketName s ++ "/"
                       ++ Normalize dir))).
Proof.
  unfold List.
  exact (ListLoop_all_or_nothing s (Normalize dir)
           (Objects (client s) (mkQuery (Normalize dir) "/")) []).
Qed.

Lemma List_all_or_nothing_witness :
  List failingBucket "/a" = inr (Errorf "Failed to list gs://bucket/a/").
Proof.
  apply (proj2 (List_all_or_nothing failingBucket "/a")
           (Fault "backend unavailable")).
  cbn. right. now left.
Defined.

Lemma filter_none {A : Type} (f : A -> bool) (l : list A) :
  (forall x, In x l -> f x = false) -> filter f l = [].
Proof.
  induction l as [|x l IH]; intros H; cbn; [reflexivity|].
  rewrite (H x (or_introl eq_refl)). apply IH. intros y Hy. apply H. now right.
Qed.

(** X18: [List] of a directory under which the bucket has no key returns
    the empty list, not an error. *)
Theorem List_missing_directory (bucket : string) (ns : Namespace)
  (dir : string) :
  (forall key, In key (keys ns) ->
               Strings.HasPrefix key (Normalize dir) = false) ->
  List (mkGCS bucket (bucketOf ns)) dir = inl [].
Proof.
  intros H. unfold List. cbn [client bucketOf Objects].
  rewrite ListLoop_faultless. unfold listObjects. cbn [Prefix].
  rewrite (filter_none _ _ H). reflexivity.
Qed.

Lemma List_missing_directory_witness :
  List (mkGCS "bucket" (bucketOf [("a/b.txt", []); ("ab.txt", [])])) "b"
  = inl [].
Proof.
  apply (List_missing_directory "bucket" [("a/b.txt", []); ("ab.txt", [])] "b").
  intros key [<-|[<-|[]]]; reflexivity.
Defined.

(** X19: what [List] returns on a bucket without faults.  Every entry is
    either the key of an object of the bucket that starts with the
    normalized directory, or the empty string. *)
Theorem List_entries (bucket : string) (ns : Namespace) (dir : string)
  (entries : list string) (entry : string) :
  List (mkGCS bucket (bucketOf ns)) dir = inl entries ->
  In entry entries ->
  entry = ""
  \/ (In entry (keys ns)
      /\ Strings.HasPrefix entry (Normalize dir) = true).
Proof.
  unfold List. cbn [client bucketOf Objects]. rewrite ListLoop_faultless.
  intros E Hin. injection E as <-. cbn [app] in Hin.
  apply in_map_iff in Hin as (attrs & <- & Hin).
  unfold listObjects in Hin. apply in_app_or in Hin as [Hin|Hin].
  - right. apply in_map_iff in Hin as (k & <- & Hk). cbn [Name].
    apply filter_In in Hk as [Hk _]. apply filter_In in Hk as [Hk Hp].
    split; [exact Hk | exact Hp].
  - left. apply in_map_iff in Hin as (d & <- & _). reflexivity.
Qed.

Lemma List_entries_witness :
  "a/b.txt" = ""
  \/ (In "a/b.txt" (keys [("a/b.txt", []); ("a/c/d.txt", []); ("ab.txt", [])])
      /\ Strings.HasPrefix "a/b.txt" (Normalize "a") = true).
Proof.
  apply (List_entries "bucket"
           [("a/b.txt", []); ("a/c/d.txt", []); ("ab.txt", [])] "a"
           ["a/b.txt"; ""] "a/b.txt").
  - reflexivity.
  - now left.
Defined.

(** ** The Streaming Matcher, for every listing *)

Lemma listRecursiveLoop_channel (s : GCSStorage) (folder : string)
  (f : string -> bool) (it : ObjectIterator) :
  (snd (listRecursiveLoop s folder f it) = Closed <-> faultless it)
  /\ (forall r, In r (fst (listRecursiveLoop s folder f it)) ->
        (isPath r /\ f (Path r) = true /\ In (Path r) (names it))
        \/ r = mkResult "" (Some (Errorf ("Failed to list gs://"
                                         ++ bucketName s ++ "/" ++ folder)))).
Proof.
  induction it as [|[attrs|err] rest [IHc IHr]]; cbn.
  - split; [split; [intros _ e [] | reflexivity] | intros r []].
  - destruct (listRecursiveLoop s folder f rest) as [sent e] eqn:Hloop.
    cbn [fst snd] in *. split.
    + assert (Hsnd : snd (if f (Name attrs)
                          then (mkResult (Name attrs) None :: sent, e)
                          else (sent, e)) = e)
        by (destruct (f (Name attrs)); reflexivity).
      rewrite Hsnd, IHc. split.
      * intros F x [Hin|Hin]; [discriminate | exact (F x Hin)].
      * intros F x Hin. apply (F x). now right.
    + intros r Hin.
      assert (Hr : (f (Name attrs) = true /\ r = mkResult (Name attrs) None)
                   \/ In r sent).
      { destruct (f (Name attrs)) eqn:Ef; cbn in Hin; [|now right].
        destruct Hin as [<-|Hin]; [left; now split | now right]. }
      destruct Hr as [[Ef ->]|Hr].
      * left. split; [reflexivity|]. split; [exact Ef | now left].
      * destruct (IHr r Hr) as [(Hp & Hf & Hn)|Herr]; [|now right].
        left. split; [exact Hp|]. split; [exact Hf | now right].
  - split.
    + split; [discriminate|]. intros F. exfalso. apply (F err). now left.
    + intros r [<-|[]]. now right.
Qed.

(** X20: what [listRecursive] puts on the channel, whatever the listing
    does.  The channel is closed exactly when the listing reports no
    fault.  Every success result carries a listed key that passes the
    filter.  Every error result is the same [Failed to list] error, which
    names the bucket and the normalized folder and not the cause. *)
Theorem listRecursive_channel (s : GCSStorage) (folder : string)
  (f : string -> bool) :
  (snd (listRecursive s folder f) = Closed
   <-> faultless (Objects (client s) (mkQuery (Normalize folder) "")))
  /\ (forall r, In r (fst (listRecursive s folder f)) ->
        (isPath r /\ f (Path r) = true
         /\ In (Path r)
               (names (Objects (client s) (mkQuery (Normalize folder) ""))))
        \/ r = mkResult "" (Some (Errorf ("Failed to list gs://"
                                         ++ bucketName s ++ "/"
                                         ++ Normalize folder)))).
Proof. unfold listRecursive. apply listRecursiveLoop_channel. Qed.

Lemma listRecursive_channel_witness :
  (isPath (mkResult "a/b.txt" None) /\ true = true
   /\ In "a/b.txt"
         (names (Objects (client failingBucket) (mkQuery (Normalize "a") ""))))
  \/ mkResult "a/b.txt" None
     = mkResult "" (Some (Errorf ("Failed to list gs://"
                                  ++ bucketName failingBucket ++ "/"
                                  ++ Normalize "a"))).
Proof.
  apply (proj2 (listRecursive_channel failingBucket "a" (fun _ => true))
           (mkResult "a/b.txt" None)).
  now left.
Defined.

(** X21: [MatchFilenamesRecursive] on a bucket without faults sends, in
    listing order, exactly the keys of the bucket that start with the
    normalized folder and whose last path element is [filename], and then
    closes the channel. *)
Theorem MatchFilenamesRecursive_matches (bucket : string) (ns : Namespace)
  (folder filename : string) :
  snd (MatchFilenamesRecursive (mkGCS bucket (bucketOf ns)) folder filename)
  = Closed
  /\ forall r,
       In r (fst (MatchFilenamesRecursive (mkGCS bucket (bucketOf ns))
                    folder filename))
       <-> (isPath r
            /\ In (Path r) (keys ns)
            /\ Strings.HasPrefix (Path r) (Normalize folder) = true
            /\ Filepath.Base (Path r) = filename).
Proof.
  unfold MatchFilenamesRecursive, listRecursive.
  cbn [client bucketOf Objects].
  rewrite listObjects_recursive, listRecursiveLoop_faultless.
  split; [reflexivity|]. cbn [fst]. intros r. rewrite in_map_iff. split.
  - intros (k & <- & Hk). apply filter_In in Hk as [Hk Hb].
    apply filter_In in Hk as [Hk Hp]. apply String.eqb_eq in Hb.
    repeat split; assumption.
  - intros (Hr & Hk & Hp & Hb). exists (Path r). split.
    + destruct r as [p e]. unfold isPath in Hr. cbn in *. now subst e.
    + apply filter_In. split; [apply filter_In; now split|].
      now apply String.eqb_eq.
Qed.

Lemma MatchFilenamesRecursive_matches_witness :
  In (mkResult "a/c/d.txt" None)
     (fst (MatchFilenamesRecursive
             (mkGCS "bucket"
                (bucketOf [("a/b.txt", []); ("a/c/d.txt", []); ("d.txt", [])]))
             "a" "d.txt")).
Proof.
  apply (proj2 (MatchFilenamesRecursive_matches "bucket"
                  [("a/b.txt", []); ("a/c/d.txt", []); ("d.txt", [])]
                  "a" "d.txt")).
  repeat split. cbn. right. now left.
Defined.

(** ** [GetDirectory] *)

Lemma lookup_CreateWith (fs : LocalFS) (path p : string)
  (bytes : list Byte.byte) :
  lookup (files (CreateWith fs path bytes)) p
  = if String.eqb path p then Some bytes else lookup (files fs) p.
Proof.
  unfold CreateWith. cbn [files lookup].
  destruct (String.eqb path p) eqn:E; [reflexivity|].
  change (filter _ (files fs)) with (remove (files fs) path).
  now rewrite lookup_remove, E.
Qed.








(** The files after the operation of [GetDirectory] on one object. *)
Lemma getObject_lookup (s : GCSStorage) (storageDir localDir : string)
  (fs : LocalFS) (name p : string) :
  lookup (files (fst (getObject s storageDir localDir fs name))) p
  = match NewReader (client s) name, localPathOf storageDir localDir name with
    | inl reader, Some localPath =>
        if String.eqb localPath p then Some (content reader)
        else lookup (files fs) p
    | _, _ => lookup (files fs) p
    end.
Proof.
  unfold getObject, localPathOf.
  destruct (NewReader (client s) name) as [reader|err]; [|reflexivity].
  destruct (Filepath.Rel storageDir name) as [relPath|]; [|reflexivity].
  destruct (readErr reader); cbn [fst]; rewrite lookup_CreateWith; reflexivity.
Qed.

(** X22: the operation of [GetDirectory] on one object, when it succeeds:
    the object was opened and read to its end, [filepath.Rel] gave it a
    local path, the file at that path holds exactly the object's bytes,
    and no other file has changed. *)
Theorem getObject_success (s : GCSStorage) (storageDir localDir : string)
  (fs fs' : LocalFS) (name : string) :
  getObject s storageDir localDir fs name = (fs', None) ->
  exists bytes localPath,
    readable s name bytes
    /\ localPathOf storageDir localDir name = Some localPath
    /\ lookup (files fs') localPath = Some bytes
    /\ (forall p, p <> localPath -> lookup (files fs') p = lookup (files fs) p).
Proof.
  intros H.
  assert (L : forall p,
            lookup (files fs') p
            = lookup (files (fst (getObject s storageDir localDir fs name))) p)
    by (now rewrite H).
  pose proof (fun p => getObject_lookup s storageDir localDir fs name p) as G.
  unfold getObject in H. unfold readable.
  destruct (NewReader (client s) name) as [reader|err] eqn:En;
    [|discriminate].
  unfold localPathOf in *.
  destruct (Filepath.Rel storageDir name) as [relPath|]; [|discriminate].
  destruct (readErr reader) eqn:Er; [discriminate|].
  exists (content reader), (Filepath.Join [localDir; relPath]).
  split; [eauto|]. split; [reflexivity|]. split.
  - rewrite L, G. now rewrite String.eqb_refl.
  - intros p ne. rewrite L, G.
    destruct (String.eqb_spec (Filepath.Join [localDir; relPath]) p);
      [congruence | reflexivity].
Qed.

Lemma getObject_success_witness :
  exists bytes localPath,
    readable (mkGCS "bucket" (bucketOf [("a/c/d.txt", [Byte.x01])]))
             "a/c/d.txt" bytes
    /\ localPathOf "a" "/tmp/out" "a/c/d.txt" = Some localPath
    /\ lookup (files (mkFS ["/tmp/out/c"] [("/tmp/out/c/d.txt", [Byte.x01])]))
              localPath
       = Some bytes
    /\ (forall p, p <> localPath ->
          lookup (files (mkFS ["/tmp/out/c"] [("/tmp/out/c/d.txt", [Byte.x01])])) p
          = lookup (files (mkFS [] [])) p).
Proof.
  exact (getObject_success
           (mkGCS "bucket" (bucketOf [("a/c/d.txt", [Byte.x01])]))
           "a" "/tmp/out" (mkFS [] [])
           (mkFS ["/tmp/out/c"] [("/tmp/out/c/d.txt", [Byte.x01])])
           "a/c/d.txt" eq_refl).
Defined.



(** X24: [GetDirectory] writes only where the listing sends it.  At every
    moment of the call, whatever it goes on to return, a local path that
    is not the local path of a listed object holds what it held. *)
Theorem GetDirectory_writes_only_targets (s : GCSStorage)
  (storageDir localDir : string) (fs : LocalFS) (schedule : list label)
  (st : state LocalFS) (p : string) :
  GetDirectory s storageDir localDir fs schedule = Some st ->
  (forall name,
     In name (names (Objects (client s) (mkQuery storageDir ""))) ->
     localPathOf storageDir localDir name <> Some p) ->
  lookup (files (world st)) p = lookup (files fs) p.
Proof.
  intros Hrun Hp. unfold GetDirectory in Hrun.
  apply (applyRecursive_world_invariant_aux 128
           (getObject s storageDir localDir) s storageDir fs
           (fun w => lookup (files w) p = lookup (files fs) p) schedule st);
    [reflexivity | | exact Hrun].
  intros w name Hin Hw. rewrite getObject_lookup.
  destruct (NewReader (client s) name) as [reader|]; [|exact Hw].
  destruct (localPathOf storageDir localDir name) as [localPath|] eqn:El;
    [|exact Hw].
  destruct (String.eqb_spec localPath p) as [->|]; [|exact Hw].
  elim (Hp name Hin). exact El.
Qed.

Lemma GetDirectory_writes_only_targets_witness :
  lookup (files (mkFS ["/tmp/out"] [("/tmp/out/b.txt", [Byte.x01]);
                                    ("/tmp/out/keep", [Byte.x02])]))
         "/tmp/out/keep"
  = lookup (files (mkFS [] [("/tmp/out/keep", [Byte.x02])])) "/tmp/out/keep".
Proof.
  apply (GetDirectory_writes_only_targets
           (mkGCS "bucket" (bucketOf [("a/b.txt", [Byte.x01])]))
           "a" "/tmp/out" (mkFS [] [("/tmp/out/keep", [Byte.x02])])
           [Main; Main; Work 0]
           (mkState [] 1%Z [mkWorker "a/b.txt" (Finished None)] None false
              Listing
              (mkFS ["/tmp/out"] [("/tmp/out/b.txt", [Byte.x01]);
                                  ("/tmp/out/keep", [Byte.x02])])
              1 ["a/b.txt"])
           "/tmp/out/keep" eq_refl).
  intros name [<-|[]]. discriminate.
Defined.

(** X25: [GetDirectory] copies the bytes.  When no two listed objects
    share a local path and the call returns nil, the local file of every
    listed object that can be read in full holds exactly that object's
    bytes. *)
Theorem GetDirectory_nil_copies (s : GCSStorage)
  (storageDir localDir : string) (fs : LocalFS) (schedule : list label)
  (st : state LocalFS) :
  (forall name other p,
     In name (names (Objects (client s) (mkQuery storageDir ""))) ->
     In other (names (Objects (client s) (mkQuery storageDir ""))) ->
     name <> other ->
     localPathOf storageDir localDir name = Some p ->
     localPathOf storageDir localDir other <> Some p) ->
  GetDirectory s storageDir localDir fs schedule = Some st ->
  main st = Returned None ->
  forall name bytes localPath,
    In name (names (Objects (client s) (mkQuery storageDir ""))) ->
    readable s name bytes ->
    localPathOf storageDir localDir name = Some localPath ->
    lookup (files (world st)) localPath = Some bytes.
Proof.
  intros Hdistinct Hrun Hm name bytes localPath Hin Hread Hpath.
  unfold GetDirectory in Hrun.
  apply (applyRecursive_nil_postcondition_aux 128
           (getObject s storageDir localDir) s storageDir fs
           (copied s storageDir localDir) schedule st) with (name := name);
    [| | exact Hrun | exact Hm | exact Hin | exact Hread | exact Hpath].
  - intros w n _ b lp (reader & En & _ & Ec) El.
    rewrite getObject_lookup, En, El, String.eqb_refl. now rewrite Ec.
  - intros w n other Hn Hother ne Hc b lp Hb El.
    rewrite getObject_lookup.
    destruct (NewReader (client s) n) as [reader|]; [|exact (Hc b lp Hb El)].
    destruct (localPathOf storageDir localDir n) as [lpn|] eqn:En;
      [|exact (Hc b lp Hb El)].
    destruct (String.eqb_spec lpn lp) as [->|]; [|exact (Hc b lp Hb El)].
    elim (Hdistinct n other lp Hn Hother ne En El).
Qed.

Lemma GetDirectory_nil_copies_witness :
  lookup (files (mkFS ["/tmp/out"] [("/tmp/out/b.txt", [Byte.x01])]))
         "/tmp/out/b.txt"
  = Some [Byte.x01].
Proof.
  apply (GetDirectory_nil_copies
           (mkGCS "bucket" (bucketOf [("a/b.txt", [Byte.x01])]))
           "a" "/tmp/out" (mkFS [] [])
           [Main; Main; Work 0; Work 0; Work 0; Main; Main]
           (mkState [] 0%Z [] None false (Returned None)
              (mkFS ["/tmp/out"] [("/tmp/out/b.txt", [Byte.x01])])
              2 ["a/b.txt"]))
    with (name := "a/b.txt").
  - intros name other p [<-|[]] [<-|[]] ne. now elim ne.
  - reflexivity.
  - reflexivity.
  - now left.
  - eexists. repeat split.
  - reflexivity.
Defined.

(* ===================================================================== *)
(** * Properties of [docker/run.go] *)
(* ===================================================================== *)

Lemma formatInt_examples :
  Docker.formatInt 125 = "125" /\ Docker.formatInt 0 = "0"
  /\ Docker.formatInt (-1) = "-1".
Proof. repeat split. Qed.

Section DockerRun.

Import Docker.

Variable c : Client.
Variable imageName : string.
Variable cmd : list string.

(** X26: [Run] returns nil exactly when the container was created and
    started, its log stream was opened and copied to its end without an
    error, and the wait delivered a result without an error and with
    status code 0. *)
Theorem Run_nil_iff :
  fst (Run c imageName cmd) = None
  <-> exists created,
        ContainerCreate c imageName cmd imageName = inl created
        /\ ContainerStart c (ID created) = None
        /\ ContainerLogs c (ID created) = inl None
        /\ ContainerWait c (ID created) = WaitResult None 0.
Proof.
  unfold Run, connectToLogs, waitUntilExit. split.
  - destruct (ContainerCreate c imageName cmd imageName) as [created|err];
      [|discriminate].
    destruct (ContainerStart c (ID created)) eqn:Es; [discriminate|].
    destruct (ContainerLogs c (ID created)) as [[err|]|err] eqn:El;
      try discriminate.
    destruct (ContainerWait c (ID created)) as [[msg|] code|err] eqn:Ew;
      try discriminate.
    destruct (Z.eqb_spec code 0) as [->|]; [|discriminate].
    intros _. exists created. repeat split; assumption.
  - intros (created & -> & -> & -> & ->). reflexivity.
Qed.

Lemma Warn_not_other (ws : list string) (e : event) :
  In e (map (fun warning => Warn ("WARNING: " ++ warning)) ws) ->
  exists msg, e = Warn msg.
Proof. intros H. apply in_map_iff in H as (w & <- & _). eauto. Qed.

(** X27: the order of what [Run] does.  It begins by creating the
    container and ends by cancelling its context, on every path.  It
    starts a container only right after it has registered the wait for
    that container; it asks for the logs of a container only right after
    it has started it; and it closes the log stream exactly when the
    stream was opened. *)
Theorem Run_events :
  (exists body,
     snd (Run c imageName cmd)
     = (Create imageName cmd imageName :: body ++ [Cancel])%list)
  /\ (forall id, In (Start id) (snd (Run c imageName cmd)) ->
        exists before rest,
          snd (Run c imageName cmd)
          = (before ++ Wait id :: Start id :: rest)%list)
  /\ (forall id, In (Logs id) (snd (Run c imageName cmd)) ->
        exists before rest,
          snd (Run c imageName cmd)
          = (before ++ Start id :: Logs id :: rest)%list)
  /\ (In Close (snd (Run c imageName cmd))
      <-> exists created errCopy,
            ContainerCreate c imageName cmd imageName = inl created
            /\ ContainerStart c (ID created) = None
            /\ ContainerLogs c (ID created) = inl errCopy).
Proof.
  unfold Run, connectToLogs.
  destruct (ContainerCreate c imageName cmd imageName) as [created|err].
  2:{ cbn. split; [now exists []|]. split; [|split; [|split]].
      - intros id [H|[H|[]]]; discriminate.
      - intros id [H|[H|[]]]; discriminate.
      - intros [H|[H|[]]]; discriminate.
      - intros (x & y & H & _). discriminate. }
  set (ws := map (fun warning => Warn ("WARNING: " ++ warning))
                 (Warnings created)).
  assert (Hws : forall e, In e ws -> exists msg, e = Warn msg)
    by (apply Warn_not_other).
  set (created_ := (Create imageName cmd imageName
                    :: ws ++ [Wait (ID created)])%list).
  assert (Hno : forall e, In e created_ ->
                  (forall id, e <> Start id) /\ (forall id, e <> Logs id)
                  /\ e <> Close).
  { intros e [<-|Hin]; [repeat split; discriminate|].
    apply in_app_or in Hin as [Hin|[<-|[]]];
      [destruct (Hws e Hin) as [msg ->]|]; repeat split; discriminate. }
  assert (Hsplit : forall tail,
            (created_ ++ Start (ID created) :: tail)%list
            = ((Create imageName cmd imageName :: ws)
               ++ Wait (ID created) :: Start (ID created) :: tail)%list).
  { intros tail. unfold created_. cbn. now rewrite <- app_assoc. }
  assert (Hbody : forall tail,
            (created_ ++ tail ++ [Cancel])%list
            = (Create imageName cmd imageName
               :: (ws ++ Wait (ID created) :: tail) ++ [Cancel])%list).
  { intros tail. unfold created_. cbn. now rewrite <- !app_assoc. }
  destruct (ContainerStart c (ID created)) as [err|] eqn:Es.
  { cbn [snd]. split; [|split; [|split]].
    - exists (ws ++ [Wait (ID created); Start (ID created)])%list.
      exact (Hbody [Start (ID created)]).
    - intros id Hin. apply in_app_or in Hin as [Hin|[Hin|[Hin|[]]]];
        [elim (proj1 (Hno _ Hin) id); reflexivity | | discriminate].
      injection Hin as <-. eexists _, _. apply Hsplit.
    - intros id Hin. apply in_app_or in Hin as [Hin|[Hin|[Hin|[]]]];
        [elim (proj1 (proj2 (Hno _ Hin)) id); reflexivity
        | discriminate | discriminate].
    - split.
      + intros Hin. apply in_app_or in Hin as [Hin|[Hin|[Hin|[]]]];
          [elim (proj2 (proj2 (Hno _ Hin))); reflexivity
          | discriminate | discriminate].
      + intros (x & y & H & Hs & _). injection H as <-. congruence. }
  destruct (ContainerLogs c (ID created)) as [errCopy|err] eqn:El.
  - assert (E : snd (match errCopy with
                     | Some err =>
                         (Some err,
                          (created_ ++ [Start (ID created); Logs (ID created);
                                        Close; Cancel])%list)
                     | None =>
                         if (waitUntilExit c (ID created) =? 0)%Z
                         then (None,
                               (created_ ++ [Start (ID created);
                                             Logs (ID created); Close;
                                             Cancel])%list)
                         else (Some (Errorf
                                 ("Command exited with non-zero status code: "
                                  ++ formatInt (waitUntilExit c (ID created)))),
                               (created_ ++ [Start (ID created);
                                             Logs (ID created); Close;
                                             Cancel])%list)
                     end)
                = (created_ ++ [Start (ID created); Logs (ID created);
                                Close; Cancel])%list).
    { destruct errCopy; [reflexivity|].
      destruct (waitUntilExit c (ID created) =? 0)%Z; reflexivity. }
    fold ws. fold created_. rewrite E. clear E.
    split; [|split; [|split]].
    + exists (ws ++ [Wait (ID created); Start (ID created);
                     Logs (ID created); Close])%list.
      exact (Hbody [Start (ID created); Logs (ID created); Close]).
    + intros id Hin.
      apply in_app_or in Hin as [Hin|[Hin|[Hin|[Hin|[Hin|[]]]]]];
        [elim (proj1 (Hno _ Hin) id); reflexivity | | | | ];
        try discriminate.
      injection Hin as <-. eexists _, _. apply Hsplit.
    + intros id Hin.
      apply in_app_or in Hin as [Hin|[Hin|[Hin|[Hin|[Hin|[]]]]]];
        [elim (proj1 (proj2 (Hno _ Hin)) id); reflexivity | | | | ];
        try discriminate.
      injection Hin as <-. exists created_. eexists. reflexivity.
    + split; [intros _; exists created, errCopy; repeat split; auto|].
      intros _. apply in_or_app. right. cbn. tauto.
  - cbn [snd]. fold ws. fold created_. split; [|split; [|split]].
    + exists (ws ++ [Wait (ID created); Start (ID created);
                     Logs (ID created)])%list.
      exact (Hbody [Start (ID created); Logs (ID created)]).
    + intros id Hin. apply in_app_or in Hin as [Hin|[Hin|[Hin|[Hin|[]]]]];
        [elim (proj1 (Hno _ Hin) id); reflexivity | | | ];
        try discriminate.
      injection Hin as <-. eexists _, _. apply Hsplit.
    + intros id Hin. apply in_app_or in Hin as [Hin|[Hin|[Hin|[Hin|[]]]]];
        [elim (proj1 (proj2 (Hno _ Hin)) id); reflexivity | | | ];
        try discriminate.
      injection Hin as <-. exists created_. eexists. reflexivity.
    + split.
      * intros Hin. apply in_app_or in Hin as [Hin|[Hin|[Hin|[Hin|[]]]]];
          [elim (proj2 (proj2 (Hno _ Hin))); reflexivity | | | ];
          discriminate.
      * intros (x & y & H & _ & Hl). injection H as <-. congruence.
Qed.

(** X28: what [Run] makes of the end of the container, once the container
    is started and its log stream open.  An error of the copy of the logs
    is returned as it is, whatever the exit status.  Otherwise a wait that
    fails, on either channel, counts as exit status 125, and every status
    other than 0 is returned as an error that prints the status. *)
Theorem Run_exit_status (created : ContainerCreateCreatedBody)
  (errCopy : option error) :
  ContainerCreate c imageName cmd imageName = inl created ->
  ContainerStart c (ID created) = None ->
  ContainerLogs c (ID created) = inl errCopy ->
  (forall err, errCopy = Some err -> fst (Run c imageName cmd) = Some err)
  /\ (errCopy = None ->
      forall status,
        ContainerWait c (ID created) = WaitResult None status ->
        status <> 0%Z ->
        fst (Run c imageName cmd)
        = Some (Errorf ("Command exited with non-zero status code: "
                        ++ formatInt status)))
  /\ (errCopy = None ->
      (exists err, ContainerWait c (ID created) = WaitError err)
      \/ (exists msg status,
            ContainerWait c (ID created) = WaitResult (Some msg) status) ->
      fst (Run c imageName cmd)
      = Some (Errorf "Command exited with non-zero status code: 125")).
Proof.
  intros Hc Hs Hl. unfold Run, connectToLogs, waitUntilExit.
  rewrite Hc, Hs, Hl. split; [|split].
  - intros err ->. reflexivity.
  - intros -> status -> ne.
    destruct (Z.eqb_spec status 0); [contradiction | reflexivity].
  - intros -> [[err ->]|(msg & status & ->)]; reflexivity.
Qed.

End DockerRun.

Lemma Run_nil_iff_witness :
  fst (Docker.Run (Docker.clientWith (Docker.WaitResult None 0)) "image"
         ["echo"])
  = None.
Proof.
  apply (proj2 (Run_nil_iff (Docker.clientWith (Docker.WaitResult None 0))
                  "image" ["echo"])).
  exists (Docker.mkCreated "c1" ["no swap limit"]). repeat split.
Defined.

Lemma Run_events_witness :
  exists before rest,
    snd (Docker.Run (Docker.clientWith (Docker.WaitResult None 3)) "image"
           ["echo"])
    = (before ++ Docker.Wait "c1" :: Docker.Start "c1" :: rest)%list.
Proof.
  apply (proj1 (proj2 (Run_events
                  (Docker.clientWith (Docker.WaitResult None 3))
                  "image" ["echo"]))).
  cbn. tauto.
Defined.

Lemma Run_exit_status_witness :
  fst (Docker.Run (Docker.clientWith (Docker.WaitError (Fault "gone")))
         "image" ["echo"])
  = Some (Errorf "Command exited with non-zero status code: 125").
Proof.
  apply (proj2 (proj2 (Run_exit_status
                  (Docker.clientWith (Docker.WaitError (Fault "gone")))
                  "image" ["echo"] (Docker.mkCreated "c1" ["no swap limit"])
                  None eq_refl eq_refl eq_refl))).
  - reflexivity.
  - left. eexists. reflexivity.
Defined.

Lemma Run_example :
  Docker.Run (Docker.clientWith (Docker.WaitResult None 3)) "image" ["echo"]
  = (Some (Errorf "Command exited with non-zero status code: 3"),
     [Docker.Create "image" ["echo"] "image";
      Docker.Warn "WARNING: no swap limit";
      Docker.Wait "c1"; Docker.Start "c1"; Docker.Logs "c1";
      Docker.Close; Docker.Cancel]).
Proof. reflexivity. Qed.
